(** * Utility-Discord-Bot: the auth cache and the [play] command

    A shallow embedding of two parts of the bot:

    - the authentication helper [getUserFromAuthToken], with its
      ten-minute user cache and the shared [discordPromises] map that lets
      concurrent request handlers await one pair of Discord API requests;
    - the [play] command of the music player: [enqueue], [enqueueQueries]
      and [play] itself, over the player session, the session registry, the
      query resolver and the array shuffle that [play.ts] imports.

    Asynchronous code is split at its [await]s: the part of a function that
    runs before the await and the part that runs once the awaited promise has
    settled are separate state transformers, and an event trace says in which
    order calls, settlements and cache evictions happen. *)

From Stdlib Require Import Ascii.
From stdpp Require Import gmap strings pretty list fin_maps.

(* ===================================================================== *)
(** * Part I: definitions                                                 *)
(* ===================================================================== *)

Module Auth.

(** ** Data *)

(** [interface Guild]. *)
Record Guild := mkGuild {
  guild_id : string;
  guild_name : string;
  guild_icon : string;
}.

(** [interface User]. *)
Record User := mkUser {
  user_id : string;
  username : string;
  discriminator : string;
  avatar : string;
  guilds : list Guild;
}.

(** The body of the [/users/@me] response: the four fields the code reads,
    and the rest of the object. *)
Record RawUser := mkRawUser {
  ru_id : string;
  ru_username : string;
  ru_discriminator : string;
  ru_avatar : string;
  ru_rest : list (string * string);
}.

(** One element of the [/users/@me/guilds] response. *)
Record RawGuild := mkRawGuild {
  rg_id : string;
  rg_name : string;
  rg_icon : string;
  rg_rest : list (string * string);
}.

#[global] Instance Guild_eq_dec : EqDecision Guild.
Proof. solve_decision. Defined.
#[global] Instance User_eq_dec : EqDecision User.
Proof. solve_decision. Defined.
#[global] Instance RawGuild_eq_dec : EqDecision RawGuild.
Proof. solve_decision. Defined.
#[global] Instance RawUser_eq_dec : EqDecision RawUser.
Proof. solve_decision. Defined.

(** An [axios.get(url, { headers: { authorization } })] call. *)
Record Request := mkRequest {
  url : string;
  authorization : string;
}.

Definition users_me : string := "https://discord.com/api/users/@me".
Definition users_me_guilds : string := "https://discord.com/api/users/@me/guilds".

(** How a promise ended; a promise that has not ended yet has no entry. *)
Inductive Settlement (A : Type) :=
  | Resolved (data : A)
  | Rejected.
Arguments Resolved {A} data.
Arguments Rejected {A}.

(** What a finished call gave its caller. *)
Inductive Outcome :=
  | Returned (u : User)
  | Threw.

(** The module's state, and what it reads from the world around it.

    The value stored at [discordPromises[auth]] is a two-element array of
    promises, created in one go; the model names such an array by the number
    [k] of its creation, and keeps the state of its first promise in
    [userRes !! k] and of its second in [guildsRes !! k].  [guildCache] is the
    key set of [client.guilds.cache].  [waiters] are the calls suspended at
    the [await], each with the array it awaits; [returned] logs the finished
    calls, oldest first. *)
Record State := mkState {
  cache : gmap string User;
  discordPromises : gmap string nat;
  requests : list Request;
  next : nat;
  userRes : gmap nat (Settlement RawUser);
  guildsRes : gmap nat (Settlement (list RawGuild));
  guildCache : gset string;
  waiters : list (string * nat);
  returned : list (string * Outcome);
}.

Definition init (bot : gset string) : State :=
  mkState ∅ ∅ [] 0 ∅ ∅ bot [] [].

(** ** [getUserFromAuthToken] *)

(** [discordPromises] is an object literal, so [discordPromises[auth]] also
    finds what every object inherits from [Object.prototype].  For a token
    that is one of these names the test on line 46 sees the inherited
    member, which is truthy, and no request is made; [Promise.all] of it on
    line 60 rejects, because it is not iterable.  The map holds the entries
    the code stored itself. *)
Definition objectPrototypeMembers : list string :=
  ["constructor"; "__defineGetter__"; "__defineSetter__"; "hasOwnProperty";
   "__lookupGetter__"; "__lookupSetter__"; "isPrototypeOf";
   "propertyIsEnumerable"; "toString"; "valueOf"; "__proto__";
   "toLocaleString"].

Definition inherited (key : string) : bool :=
  bool_decide (key ∈ objectPrototypeMembers).

(** Lines 43-60, up to the [await]: a cache hit returns at once; otherwise the
    two requests are issued unless something is already there for the token,
    and the call awaits what is there: the stored array, or an inherited
    member. *)
Inductive Begun :=
  | Hit (u : User)
  | Await (k : nat)
  | AwaitInherited.

Definition begin (auth : string) (st : State) : Begun * State :=
  match cache st !! auth with
  | Some cacheRes => (Hit cacheRes, st)
  | None =>
      if inherited auth then (AwaitInherited, st) else
      match discordPromises st !! auth with
      | Some k => (Await k, st)
      | None =>
          let k := next st in
          (Await k,
           mkState (cache st)
                   (<[auth := k]> (discordPromises st))
                   (requests st ++ [mkRequest users_me auth;
                                    mkRequest users_me_guilds auth])
                   (S k)
                   (userRes st) (guildsRes st) (guildCache st)
                   (waiters st) (returned st))
      end
  end.

(** [Promise.all] over the stored array: rejected as soon as one of the two
    is, fulfilled once both are. *)
Inductive AllState :=
  | AllPending
  | AllResolved (userData : RawUser) (guildsData : list RawGuild)
  | AllRejected.

Definition promise_all (st : State) (k : nat) : AllState :=
  match userRes st !! k, guildsRes st !! k with
  | Some Rejected, _ => AllRejected
  | _, Some Rejected => AllRejected
  | Some (Resolved u), Some (Resolved g) => AllResolved u g
  | _, _ => AllPending
  end.

(** Lines 64-76: the [User] built from the two response bodies. *)
Definition toGuild (guild : RawGuild) : Guild :=
  mkGuild (rg_id guild) (rg_name guild) (rg_icon guild).

Definition buildUser (bot : gset string) (userData : RawUser)
    (guildsData : list RawGuild) : User :=
  mkUser (ru_id userData) (ru_username userData)
         (ru_discriminator userData) (ru_avatar userData)
         (toGuild <$> filter (λ guild, rg_id guild ∈ bot) guildsData).

(** Lines 62-79, after a fulfilled [await]: build the user, cache it, delete
    the map entry, return. *)
Definition finish (auth : string) (userData : RawUser)
    (guildsData : list RawGuild) (st : State) : User * State :=
  let user := buildUser (guildCache st) userData guildsData in
  (user,
   mkState (<[auth := user]> (cache st))
           (delete auth (discordPromises st))
           (requests st) (next st) (userRes st) (guildsRes st)
           (guildCache st) (waiters st) (returned st)).

Definition log (auth : string) (o : Outcome) (st : State) : State :=
  mkState (cache st) (discordPromises st) (requests st) (next st)
          (userRes st) (guildsRes st) (guildCache st) (waiters st)
          (returned st ++ [(auth, o)]).

Definition park (auth : string) (k : nat) (st : State) : State :=
  mkState (cache st) (discordPromises st) (requests st) (next st)
          (userRes st) (guildsRes st) (guildCache st)
          (waiters st ++ [(auth, k)]) (returned st).

(** The continuation of a call that awaits array [k]: nothing while the
    aggregate is pending, the rest of the function body once it is fulfilled,
    and a rejection that leaves the state alone (line 60 throws, lines 77-78
    are not reached). *)
Definition continue (auth : string) (k : nat) (st : State) : option (Outcome * State) :=
  match promise_all st k with
  | AllPending => None
  | AllResolved userData guildsData =>
      let '(user, st') := finish auth userData guildsData st in
      Some (Returned user, st')
  | AllRejected => Some (Threw, st)
  end.

(** One call, run as far as it goes: to its result, or to the [await]. *)
Definition getUserFromAuthToken (auth : string) (st : State)
    : option Outcome * State :=
  match begin auth st with
  | (Hit u, st1) => (Some (Returned u), st1)
  | (AwaitInherited, st1) => (Some Threw, st1)
  | (Await k, st1) =>
      match continue auth k st1 with
      | Some (o, st2) => (Some o, st2)
      | None => (None, park auth k st1)
      end
  end.

(** [clearCache], and the expiry of an entry after [stdTTL]. *)
Definition clearCache (auth : string) (st : State) : State :=
  mkState (delete auth (cache st)) (discordPromises st) (requests st)
          (next st) (userRes st) (guildsRes st) (guildCache st)
          (waiters st) (returned st).

(** ** The event loop *)

Inductive Event :=
  | Call (auth : string)
  | SettleUser (k : nat) (o : Settlement RawUser)
  | SettleGuilds (k : nat) (o : Settlement (list RawGuild))
  | ClearCache (auth : string)
  | Expire (auth : string)
  | GuildJoin (g : string)
  | GuildLeave (g : string).

Definition call (auth : string) (st : State) : State :=
  match getUserFromAuthToken auth st with
  | (Some o, st') => log auth o st'
  | (None, st') => st'
  end.

(** After a settlement every suspended call whose aggregate has settled runs
    to its end, in the order the calls were made, before anything else
    happens; the others stay suspended. *)
Definition resume (st : State) (w : string * nat) : State :=
  match continue w.1 w.2 st with
  | Some (o, st') => log w.1 o st'
  | None => st
  end.

Definition set_waiters (ws : list (string * nat)) (st : State) : State :=
  mkState (cache st) (discordPromises st) (requests st) (next st)
          (userRes st) (guildsRes st) (guildCache st) ws (returned st).

Definition is_pending (st : State) (w : string * nat) : Prop :=
  promise_all st w.2 = AllPending.

#[global] Instance AllState_eq_dec : EqDecision AllState.
Proof. solve_decision. Defined.

#[global] Instance is_pending_dec st w : Decision (is_pending st w).
Proof. unfold is_pending. apply _. Defined.

Definition wake (st : State) : State :=
  set_waiters (filter (is_pending st) (waiters st))
              (foldl resume st (waiters st)).

Definition settleUser (k : nat) (o : Settlement RawUser) (st : State) : State :=
  mkState (cache st) (discordPromises st) (requests st) (next st)
          (<[k := o]> (userRes st)) (guildsRes st) (guildCache st)
          (waiters st) (returned st).

Definition settleGuilds (k : nat) (o : Settlement (list RawGuild)) (st : State) : State :=
  mkState (cache st) (discordPromises st) (requests st) (next st)
          (userRes st) (<[k := o]> (guildsRes st)) (guildCache st)
          (waiters st) (returned st).

Definition set_guildCache (bot : gset string) (st : State) : State :=
  mkState (cache st) (discordPromises st) (requests st) (next st)
          (userRes st) (guildsRes st) bot (waiters st) (returned st).

(** A promise settles once, and only a promise that exists settles. *)
Definition step (st : State) (ev : Event) : State :=
  match ev with
  | Call auth => call auth st
  | SettleUser k o =>
      if decide (k < next st ∧ userRes st !! k = None)
      then wake (settleUser k o st) else st
  | SettleGuilds k o =>
      if decide (k < next st ∧ guildsRes st !! k = None)
      then wake (settleGuilds k o st) else st
  | ClearCache auth => clearCache auth st
  | Expire auth => clearCache auth st
  | GuildJoin g => set_guildCache (guildCache st ∪ {[g]}) st
  | GuildLeave g => set_guildCache (guildCache st ∖ {[g]}) st
  end.

Definition run (st : State) (evs : list Event) : State := foldl step st evs.

(** ** Consistency of the state

    What holds of the state between two events: a suspended call awaits the
    array stored for its token, and that array has not settled; a token with
    a stored array has no cached user; arrays are numbered below [next], and
    no promise of an array yet to be created has settled. *)
Record Inv (st : State) : Prop := mkInv {
  waiter_entry : ∀ a k, (a, k) ∈ waiters st → discordPromises st !! a = Some k;
  waiter_pending : ∀ a k, (a, k) ∈ waiters st → promise_all st k = AllPending;
  entry_miss : ∀ a k, discordPromises st !! a = Some k → cache st !! a = None;
  entry_lt : ∀ a k, discordPromises st !! a = Some k → k < next st;
  fresh_user : ∀ k, next st ≤ k → userRes st !! k = None;
  fresh_guilds : ∀ k, next st ≤ k → guildsRes st !! k = None;
}.

(** Only tokens that are not names of inherited members get an entry in the
    map or a cached user. *)
Definition Own (st : State) : Prop :=
  (∀ a k, discordPromises st !! a = Some k → inherited a = false) ∧
  (∀ a u, cache st !! a = Some u → inherited a = false).

(** A failed lookup: the array stored for [auth] is [k], and one of its two
    promises is rejected. *)
Definition Failed (auth : string) (k : nat) (st : State) : Prop :=
  discordPromises st !! auth = Some k ∧ promise_all st k = AllRejected.

(** A lookup for "token" that completes while the bot is in guild "g1",
    after which the bot leaves "g1". *)
Definition stale_trace : list Event :=
  [Call "token";
   SettleUser 0 (Resolved (mkRawUser "1" "u" "0001" "a" []));
   SettleGuilds 0 (Resolved [mkRawGuild "g1" "Guild" "icon" []]);
   GuildLeave "g1"].

(** ** [authMiddleware] *)

(** What the middleware does with the request: hand it on with the user
    attached, or end it with status 401. *)
Inductive Response :=
  | Next (user : User)
  | Status401.

(** Lines 90-98: the [try] around the awaited call. *)
Definition respond (o : Outcome) : Response :=
  match o with
  | Returned u => Next u
  | Threw => Status401
  end.

(** [authMiddleware] (lines 82-99), run as far as it goes.  [cookie] is
    [req.cookies.auth]: absent, or a string, of which the empty one is falsy.
    No response yet means that the call inside is suspended. *)
Definition authMiddleware (cookie : option string) (st : State)
    : option Response * State :=
  match cookie with
  | None => (Some Status401, st)
  | Some auth =>
      if String.eqb auth EmptyString then (Some Status401, st)
      else
        let '(o, st') := getUserFromAuthToken auth st in
        (respond <$> o, st')
  end.

(** The outcome of a suspended call once the event loop has resumed it:
    what [resume] logs for it. *)
Definition outcome_of (st : State) (w : string * nat) : option (string * Outcome) :=
  match promise_all st w.2 with
  | AllPending => None
  | AllResolved userData guildsData =>
      Some (w.1, Returned (buildUser (guildCache st) userData guildsData))
  | AllRejected => Some (w.1, Threw)
  end.

(** A lookup for "token" that completes while the bot is in guild "g1". *)
Definition lookup_trace : list Event :=
  [Call "token";
   SettleUser 0 (Resolved (mkRawUser "1" "u" "0001" "a" []));
   SettleGuilds 0 (Resolved [mkRawGuild "g1" "Guild" "icon" []])].

(** Whether an event is about the token [auth]: a call or an eviction for
    it, or the settlement of a promise that a call for it is suspended on. *)
Definition concerns (auth : string) (st : State) (ev : Event) : Prop :=
  match ev with
  | Call a | ClearCache a | Expire a => a = auth
  | SettleUser k _ | SettleGuilds k _ => (auth, k) ∈ waiters st
  | GuildJoin _ | GuildLeave _ => False
  end.

(** Events that evict the cached user of [auth]. *)
Definition evicts (auth : string) (ev : Event) : bool :=
  match ev with
  | ClearCache a | Expire a => bool_decide (a = auth)
  | _ => false
  end.

End Auth.

Module Player.

(** ** Tracks and embeds *)

Inductive TrackVariant :=
  | YOUTUBE_VOD
  | YOUTUBE_LIVESTREAM
  | TWITCH_VOD.

(** [new Track(link, variant)]. *)
Record Track := mkTrack {
  link : string;
  variant : TrackVariant;
}.

Record VideoDetails := mkVideoDetails {
  title : string;
  duration : nat;
}.

#[global] Instance TrackVariant_eq_dec : EqDecision TrackVariant.
Proof. solve_decision. Defined.
#[global] Instance Track_eq_dec : EqDecision Track.
Proof. solve_decision. Defined.

(** The fields of [MessageEmbedOptions] that [play.ts] sets; [author] stands
    for [author.name] and [footer] for [footer.text]. *)
Record MessageEmbedOptions := mkEmbed {
  author : option string;
  description : option string;
  footer : option string;
}.

#[global] Instance MessageEmbedOptions_eq_dec : EqDecision MessageEmbedOptions.
Proof. solve_decision. Defined.

Definition nl : string := String "010"%char EmptyString.

(** JavaScript truthiness of a [string | null]: [null] and [''] are falsy. *)
Definition truthy (s : option string) : bool :=
  match s with
  | Some s => negb (String.eqb s EmptyString)
  | None => false
  end.

(** [s || undefined]. *)
Definition orUndefined (s : string) : option string :=
  if String.eqb s EmptyString then None else Some s.

(** ** The collaborators [play.ts] imports

    What the command reads from outside the player: track metadata, the
    YouTube search behind a query, the link classifiers and the playlist
    parsers.  A lookup that rejects or throws is [None]. *)
Inductive LinkType := PLAYLIST | ALBUM | TRACK | OTHER.

Record Env := mkEnv {
  getVideoDetails : Track → option VideoDetails;
  getFractionalDuration : nat → VideoDetails → string;
  resolveQuery : string → option Track;
  isTwitchVodLink : string → bool;
  validateVideo : string → bool;
  validatePlaylist : string → bool;
  isPlaylist : string → bool;
  parseYoutubePlaylist : string → option (list Track);
  parseSpotifyLink : string → option LinkType;
  parseSpotifyPlaylist : string → option (list string);
  parseSpotifyAlbum : string → option (list string);
  parseSpotifyTrack : string → option string;
}.

(** Collaborators for the examples: every query resolves to the YouTube video
    of that name, every video has details, and no link is recognised. *)
Definition exampleEnv : Env :=
  mkEnv (λ t, Some (mkVideoDetails (link t) 60)) (λ _ _, "0:00 / 1:00")
        (λ q, Some (mkTrack q YOUTUBE_VOD))
        (λ _, false) (λ _, false) (λ _, false) (λ _, false)
        (λ _, None) (λ _, None) (λ _, None) (λ _, None) (λ _, None).

(** Modelled from the spec: [shuffleArray] of [src/utils], which is not among
    the sources.  The spec asks for a uniform shuffle such as Fisher-Yates;
    this is Fisher-Yates from the last index down, and [rnd] supplies the
    random draws, the draw for index [i] being reduced to [0..i]. *)
Definition swap {A} (l : list A) (i j : nat) : list A :=
  match l !! i, l !! j with
  | Some x, Some y => <[j := x]> (<[i := y]> l)
  | _, _ => l
  end.

Fixpoint fisherYates {A} (rnd : list nat) (i : nat) (l : list A) {struct i}
    : list A :=
  match i with
  | 0 => l
  | S i' =>
      match rnd with
      | [] => l
      | r :: rnd' => fisherYates rnd' i' (swap l i (r mod S i))
      end
  end.

Definition shuffleArray {A} (rnd : list nat) (l : list A) : list A :=
  fisherYates rnd (length l - 1) l.

(** ** Session *)

Record Channel := mkChannel {
  channel_id : string;
  joinable : bool;
}.

(** Modelled from the spec: the [Session] class of [./session], which is not
    among the sources.  The spec gives it a queue, a current track and the
    [shuffled] and [paused] flags, keyed by guild and bound to a voice
    channel; the queue holds the tracks after the current one. *)
Record Session := mkSession {
  guild : string;
  channel : Channel;
  queue : list Track;
  currentTrack : option Track;
  shuffled : bool;
  paused : bool;
}.

Definition newSession (g : string) (ch : Channel) : Session :=
  mkSession g ch [] None false false.

Definition getCurrentTrack (s : Session) : option Track := currentTrack s.
Definition isShuffled (s : Session) : bool := shuffled s.

Definition set_queue (q : list Track) (s : Session) : Session :=
  mkSession (guild s) (channel s) q (currentTrack s) (shuffled s) (paused s).

(** Modelled from the spec: [Queue.append(tracks, toFront)], at the tail or
    immediately after the current-playing position. *)
Definition append (tracks : list Track) (toFront : bool) (q : list Track) : list Track :=
  if toFront then tracks ++ q else q ++ tracks.

(** Modelled from the spec: [Queue.advance()], which removes and returns the
    head, and [Session] promoting it to the current track. *)
Definition advance (s : Session) : Session :=
  match queue s with
  | [] => mkSession (guild s) (channel s) [] None (shuffled s) (paused s)
  | t :: q => mkSession (guild s) (channel s) q (Some t) (shuffled s) (paused s)
  end.

(** Modelled from the spec: [Session.enqueue(tracks, pushToFront)] appends to
    the queue, marks the head as current if nothing was playing, and returns
    whether playback was already active.  [pushToFront] defaults to [false]. *)
Definition session_enqueue (tracks : list Track) (pushToFront : bool)
    (s : Session) : bool * Session :=
  let wasAlreadyPlaying := bool_decide (is_Some (currentTrack s)) in
  let s' := set_queue (append tracks pushToFront (queue s)) s in
  (wasAlreadyPlaying, if wasAlreadyPlaying then s' else advance s').

(** Modelled from the spec: [resume] and [pause] set the [paused] flag. *)
Definition session_resume (s : Session) : Session :=
  mkSession (guild s) (channel s) (queue s) (currentTrack s) (shuffled s) false.

Definition session_pause (s : Session) : Session :=
  mkSession (guild s) (channel s) (queue s) (currentTrack s) (shuffled s) true.

(** Modelled from the spec: [Session.shuffle()] sets [shuffled] and permutes
    every entry except the one currently playing. *)
Definition session_shuffle (rnd : list nat) (s : Session) : Session :=
  mkSession (guild s) (channel s) (shuffleArray rnd (queue s))
            (currentTrack s) true (paused s).

(** The tracks of a session in playing order, the current one first. *)
Definition playlist (s : Session) : list Track :=
  option_list (currentTrack s) ++ queue s.

(** ** Session registry *)

Inductive DuplicateSession := duplicateSession.

(** Modelled from the spec: the registry of [./sessions], which is not among
    the sources: one entry per registered session, [get] by guild, and
    [create] that fails when the guild already has a session. *)
Definition sessions_get (g : string) (reg : list Session) : option Session :=
  list_find (λ s, guild s = g) reg ≫= λ r, Some r.2.

Definition sessions_create (g : string) (ch : Channel) (reg : list Session)
    : (DuplicateSession + Session) * list Session :=
  match sessions_get g reg with
  | Some _ => (inl duplicateSession, reg)
  | None => let s := newSession g ch in (inr s, reg ++ [s])
  end.

(** A session is an object shared with the registry: what a command does to
    it shows in the registry entry of its guild. *)
Definition store (s : Session) (reg : list Session) : list Session :=
  (λ s0, if decide (guild s0 = guild s) then s else s0) <$> reg.

(** A run of enqueue calls on one session, with the result of each. *)
Fixpoint enqueueAll (ops : list (list Track * bool)) (s : Session)
    : list bool * Session :=
  match ops with
  | [] => ([], s)
  | (tracks, pushToFront) :: ops =>
      let '(was, s) := session_enqueue tracks pushToFront s in
      let '(rest, s) := enqueueAll ops s in
      (was :: rest, s)
  end.

(** ** [play.ts] *)

Inductive Exn :=
  | TypeError
  | Error (message : string).

#[global] Instance Exn_eq_dec : EqDecision Exn.
Proof. solve_decision. Defined.

(** Modelled from the spec: [getTracksFromQueries] of [./youtube], which is
    not among the sources.  One track per query, a query that fails to
    resolve is dropped, and the returned list keeps the order of the
    queries.  With a callback, the callback receives each query's tracks
    when the lookup of that query completes; lookups may complete out of
    order, and [completed] gives, for the queries handed over, the order in
    which their lookups complete, a permutation of them. *)
Definition getTracksFromQueries (E : Env) (queries : list string) : list Track :=
  omap (resolveQuery E) queries.

Definition getTracksFromQueries_cb {S} (E : Env)
    (completed : list string → list string) (queries : list string)
    (cb : list Track → S → S) (s : S) : S :=
  foldl (λ s query,
           match resolveQuery E query with
           | Some t => cb [t] s
           | None => s
           end) s (completed queries).

Definition couldNotFetch : string :=
  "Could not fetch video details."
  +:+ " This video probably cannot be played for some reason."
  +:+ " This can happen if the video is age-restricted or region-locked.".

Definition nowPlaying : string := "🔊 Now Playing".

(** [enqueue] (lines 33-66).  With no track at all, [tracks[0]] is
    [undefined]: line 38 throws inside the [try], and so does line 59 inside
    the [catch], which nothing catches. *)
Definition enqueue (E : Env) (session : Session) (tracks : list Track)
    (pushToFront : bool) : Session * (Exn + MessageEmbedOptions) :=
  let wasPlayingAnything := bool_decide (is_Some (getCurrentTrack session)) in
  let session := (session_enqueue tracks pushToFront session).2 in
  match tracks with
  | [] => (session, inl TypeError)
  | track0 :: _ =>
      match getVideoDetails E track0 with
      | Some videoDetails =>
          if wasPlayingAnything && bool_decide (1 < length tracks) then
            (session, inr (mkEmbed None
              (Some ("Queued " +:+ pretty (length tracks) +:+ " tracks.")) None))
          else if bool_decide (1 < length tracks) then
            (session, inr (mkEmbed None
              (Some ("Now playing: " +:+ title videoDetails +:+ nl
                     +:+ "Queued " +:+ pretty (length tracks - 1) +:+ " tracks."))
              None))
          else if wasPlayingAnything then
            (session, inr (mkEmbed None
              (Some ("Queued at position #"
                     +:+ pretty (if pushToFront then 1 else length (queue session))
                     +:+ ": " +:+ title videoDetails))
              None))
          else
            let footerText := getFractionalDuration E 0 videoDetails in
            (session, inr (mkEmbed (Some nowPlaying)
                                   (Some (title videoDetails))
                                   (orUndefined footerText)))
      | None =>
          (session, inr (mkEmbed None (Some couldNotFetch) None))
      end
  end.

(** [concatDescription] (lines 74-79). *)
Definition concatDescription (oldOptions : MessageEmbedOptions)
    (newDescription : string) : MessageEmbedOptions :=
  mkEmbed (author oldOptions)
          (Some (if truthy (description oldOptions)
                 then default EmptyString (description oldOptions) +:+ nl +:+ newDescription
                 else newDescription))
          (footer oldOptions).

Definition fetchingTheOther (n : nat) : string :=
  "Fetching the other " +:+ pretty n +:+ " tracks from YouTube...".

(** The function wrapped by [throttle] (lines 84-99): the report for the
    count [numFetched] at the moment it runs. *)
Definition messageUpdate (firstTrackPartialMessage : MessageEmbedOptions)
    (restQueries : list string) (numFetched : nat) : MessageEmbedOptions :=
  if bool_decide (numFetched = 0) then
    concatDescription firstTrackPartialMessage
      (fetchingTheOther (length restQueries))
  else if bool_decide (numFetched < length restQueries) then
    concatDescription firstTrackPartialMessage
      ("Queued " +:+ pretty numFetched +:+ " tracks." +:+ nl
       +:+ fetchingTheOther (length restQueries - numFetched))
  else
    concatDescription firstTrackPartialMessage
      ("Queued " +:+ pretty numFetched +:+ " tracks from YouTube.").

(** The working set of the background resolution started on line 101: the
    session it feeds, [numFetched], and the value of [numFetched] at each
    request made to [throttledMessageUpdate], oldest first. *)
Record Batch := mkBatch {
  target : Session;
  numFetched : nat;
  updateRequests : list nat;
}.

(** The callback of lines 101-105. *)
Definition onNewTracks (newTracks : list Track) (b : Batch) : Batch :=
  let session := (session_enqueue newTracks false (target b)).2 in
  let numFetched := numFetched b + length newTracks in
  mkBatch session numFetched (updateRequests b ++ [numFetched]).

Definition resolveRest (E : Env) (completed : list string → list string)
    (restQueries : list string) (session : Session) : Batch :=
  getTracksFromQueries_cb E completed restQueries onNewTracks
    (mkBatch session 0 []).

(** What [enqueueQueries] has done when its promise resolves: the session
    with the first track enqueued, the reply of line 81, and the rest of the
    queries, whose resolution goes on in the background. *)
Record Enqueued := mkEnqueued {
  eq_session : Session;
  eq_first : MessageEmbedOptions;
  eq_reply : MessageEmbedOptions;
  eq_rest : list string;
}.

(** [enqueueQueries] (lines 68-106).  [play] calls it with two queries or
    more.  When the first query does not resolve, [firstTrack] is [undefined]
    and [enqueue] throws as it does for an empty list; the code has by then
    handed [[undefined]] to [session.enqueue], which a queue of tracks cannot
    show, and the model leaves the session as it was. *)
Definition enqueueQueries (E : Env) (rnd : list nat) (session : Session)
    (queries : list string) : Session * (Exn + Enqueued) :=
  let queries := if isShuffled session then shuffleArray rnd queries else queries in
  match queries with
  | [] => (session, inl TypeError)
  | firstQuery :: restQueries =>
      match getTracksFromQueries E [firstQuery] with
      | [] => (session, inl TypeError)
      | firstTrack :: _ =>
          match enqueue E session [firstTrack] false with
          | (session, inl e) => (session, inl e)
          | (session, inr firstTrackPartialMessage) =>
              (session,
               inr (mkEnqueued session firstTrackPartialMessage
                      (concatDescription firstTrackPartialMessage
                         (fetchingTheOther (length restQueries)))
                      restQueries))
          end
      end
  end.

(** [enqueueQueries] and the background resolution it starts, run to the end
    with nothing else touching the session in between. *)
Definition enqueueQueries_settled (E : Env) (rnd : list nat)
    (completed : list string → list string) (session : Session)
    (queries : list string) : option Batch :=
  match enqueueQueries E rnd session queries with
  | (_, inr r) => Some (resolveRest E completed (eq_rest r) (eq_session r))
  | (_, inl _) => None
  end.

(** ** The throttle *)

(** Modelled from the spec: the throttle around the report.  Line 84 wraps
    the report in [throttle(..., 5000)] of lodash, which is not among the
    sources; the spec describes a notifier that fires at most once per
    interval: a notification requested when none has fired within the last
    interval fires at once, and one requested sooner is coalesced into a
    firing scheduled for the end of the interval, which reports the state as
    it is then.  Times are in milliseconds.  [current] is [numFetched] as
    the report would read it, and [fired] lists the notifications, each with
    its time and the count it showed. *)
Definition throttleInterval : nat := 5000.

Record Throttle := mkThrottle {
  lastFired : option nat;
  scheduled : bool;
  current : nat;
  fired : list (nat * nat);
}.

Definition idleThrottle : Throttle := mkThrottle None false 0 [].

(** Modelled from the spec: time has come to [t], and a scheduled firing
    that is due has fired, showing the count as it is then. *)
Definition elapse (wait t : nat) (th : Throttle) : Throttle :=
  match lastFired th with
  | Some l =>
      if scheduled th && bool_decide (l + wait ≤ t)
      then mkThrottle (Some (l + wait)) false (current th)
                      (fired th ++ [(l + wait, current th)])
      else th
  | None => th
  end.

(** Modelled from the spec: [throttledMessageUpdate()] is called at time
    [t], [numFetched] being [n] (lines 103-104).  It fires at once when no
    notification fired within the last interval, and is coalesced into the
    scheduled firing otherwise. *)
Definition requestUpdate (wait : nat) (th : Throttle) (req : nat * nat) : Throttle :=
  let '(t, n) := req in
  let th := elapse wait t th in
  match lastFired th with
  | Some l =>
      if bool_decide (t < l + wait)
      then mkThrottle (Some l) true n (fired th)
      else mkThrottle (Some t) false n (fired th ++ [(t, n)])
  | None => mkThrottle (Some t) false n (fired th ++ [(t, n)])
  end.

(** Modelled from the spec: after the last request the scheduled firing,
    if any, fires when it is due. *)
Definition lastWindow (wait : nat) (th : Throttle) : Throttle :=
  match lastFired th with
  | Some l => elapse wait (l + wait) th
  | None => th
  end.

(** Modelled from the spec: the notifications that the requests [reqs],
    each a time and the count at that time, give rise to. *)
Definition throttled (wait : nat) (reqs : list (nat * nat)) : list (nat * nat) :=
  fired (lastWindow wait (foldl (requestUpdate wait) idleThrottle reqs)).

(** The reports a batch shows: the callback asks for a report at each of
    [times], and each notification renders the count it reads. *)
Definition progressReports (times : list nat) (b : Batch)
    (firstTrackPartialMessage : MessageEmbedOptions)
    (restQueries : list string) : list (nat * MessageEmbedOptions) :=
  (λ f, (f.1, messageUpdate firstTrackPartialMessage restQueries f.2))
    <$> throttled throttleInterval (zip times (updateRequests b)).

(** Times in order, none before [now]. *)
Fixpoint ordered (now : nat) (times : list nat) : Prop :=
  match times with
  | [] => True
  | t :: times => now ≤ t ∧ ordered t times
  end.

(** Two notifications in a row are at least [wait] apart. *)
Definition spaced (wait : nat) (fs : list (nat * nat)) : Prop :=
  ∀ i f1 f2, fs !! i = Some f1 → fs !! S i = Some f2 → f1.1 + wait ≤ f2.1.

(** What holds of the throttle after a request made at time [now]. *)
Definition Throttling (wait now : nat) (th : Throttle) : Prop :=
  spaced wait (fired th) ∧
  match lastFired th with
  | None => fired th = [] ∧ scheduled th = false
  | Some l =>
      l ≤ now ∧ (∃ n, last (fired th) = Some (l, n)) ∧
      if scheduled th then now < l + wait
      else last (fired th) = Some (now, current th)
  end.

(** ** The command *)

Record PlayInputs := mkInputs {
  vodLink : option string;
  streamLink : option string;
  queryStr : option string;
  pushToFront : bool;
  shuffle : bool;
}.

(** What [play] reads from the interaction: the guild, the invoking user, and
    the voice channel of that user's member in the guild. *)
Record Interaction := mkInteraction {
  i_guild : string;
  i_user : option string;
  i_voice : option Channel;
}.

Inductive Reply :=
  | EditReply (content : string)
  | RespondWithEmbed (e : MessageEmbedOptions)
  | AttachPlayerButtons.

(** What one run of [play] leaves behind: the registry, the replies in the
    order they were sent, the error the returned promise rejects with,
    whether [sessions.create] was called, and the queries left to the
    background resolution. *)
Record PlayResult := mkResult {
  registry : list Session;
  replies : list Reply;
  thrown : option Exn;
  created : bool;
  background : option (list string);
}.

(** The part of [play] after the session is in hand: session after, replies,
    error, background queries. *)
Definition Ran : Type := Session * list Reply * option Exn * option (list string).

(** [enqueue], [respondWithEmbed], [attachPlayerButtons]. *)
Definition enqueueAndRespond (E : Env) (session : Session)
    (tracks : list Track) (pushToFront : bool) : Ran :=
  match enqueue E session tracks pushToFront with
  | (session, inr responseMessage) =>
      (session, [RespondWithEmbed responseMessage; AttachPlayerButtons], None, None)
  | (session, inl e) => (session, [], Some e, None)
  end.

(** A run inside the [try] of lines 175-212: whatever it throws is swallowed
    by the empty [catch], and line 214 throws instead. *)
Definition invalidLink : Exn := Error "Invalid link.".

Definition caught (r : Ran) : Ran :=
  match r with
  | (session, rs, Some _, bg) => (session, rs, Some invalidLink, bg)
  | _ => r
  end.

Definition playSpotify (E : Env) (rndQ : list nat) (session : Session)
    (vodLink : string) (pushToFront : bool) : Ran :=
  match parseSpotifyLink E vodLink with
  | Some PLAYLIST =>
      match parseSpotifyPlaylist E vodLink with
      | Some queries =>
          if bool_decide (1 < length queries) then
            match enqueueQueries E rndQ session queries with
            | (session, inr r) =>
                (session, [RespondWithEmbed (eq_reply r); AttachPlayerButtons],
                 None, Some (eq_rest r))
            | (session, inl _) => (session, [], Some invalidLink, None)
            end
          else
            caught (enqueueAndRespond E session
                      (getTracksFromQueries E queries) pushToFront)
      | None => (session, [], Some invalidLink, None)
      end
  | Some ALBUM =>
      match parseSpotifyAlbum E vodLink with
      | Some queries =>
          if bool_decide (1 < length queries) then
            (* [return enqueueQueries(...)]: not awaited inside the [try] *)
            match enqueueQueries E rndQ session queries with
            | (session, inr r) =>
                (session, [RespondWithEmbed (eq_reply r)], None, Some (eq_rest r))
            | (session, inl e) => (session, [], Some e, None)
            end
          else
            caught (enqueueAndRespond E session
                      (getTracksFromQueries E queries) pushToFront)
      | None => (session, [], Some invalidLink, None)
      end
  | Some TRACK =>
      match parseSpotifyTrack E vodLink with
      | Some query =>
          caught (enqueueAndRespond E session
                    (getTracksFromQueries E [query]) pushToFront)
      | None => (session, [], Some invalidLink, None)
      end
  | Some OTHER | None => (session, [], Some invalidLink, None)
  end.

(** Lines 158-232. *)
Definition playInto (E : Env) (rndQ : list nat) (session : Session)
    (inputs : PlayInputs) : Ran :=
  if truthy (vodLink inputs) then
    let vodLink := default EmptyString (vodLink inputs) in
    if isTwitchVodLink E vodLink then
      enqueueAndRespond E session [mkTrack vodLink TWITCH_VOD] (pushToFront inputs)
    else if validateVideo E vodLink || validatePlaylist E vodLink then
      if isPlaylist E vodLink then
        match parseYoutubePlaylist E vodLink with
        | Some tracks => enqueueAndRespond E session tracks (pushToFront inputs)
        | None => (session, [], Some (Error "parseYoutubePlaylist"), None)
        end
      else
        enqueueAndRespond E session [mkTrack vodLink YOUTUBE_VOD] (pushToFront inputs)
    else playSpotify E rndQ session vodLink (pushToFront inputs)
  else if truthy (streamLink inputs) then
    let streamLink := default EmptyString (streamLink inputs) in
    if negb (validateVideo E streamLink) then
      (session, [EditReply "Invalid YouTube link."], None, None)
    else
      enqueueAndRespond E session [mkTrack streamLink YOUTUBE_LIVESTREAM]
        (pushToFront inputs)
  else if truthy (queryStr inputs) then
    let queryStr := default EmptyString (queryStr inputs) in
    enqueueAndRespond E session (getTracksFromQueries E [queryStr])
      (pushToFront inputs)
  else
    (session, [EditReply "Resumed."; AttachPlayerButtons], None, None).

Definition replyOnly (reg : list Session) (content : string) : PlayResult :=
  mkResult reg [EditReply content] None false None.

(** [play] (lines 116-233).  [rndS] feeds [session.shuffle()] and [rndQ] the
    [shuffleArray] of [enqueueQueries].  The channel passed to
    [sessions.create] is the voice channel of the member fetched from
    [interaction.guild], so the session is created for that guild. *)
Definition play (E : Env) (rndS rndQ : list nat) (interaction : Interaction)
    (inputs : PlayInputs) (reg : list Session) : PlayResult :=
  let numArgs :=
    length (filter (λ a, Is_true (truthy a))
                   [vodLink inputs; streamLink inputs; queryStr inputs]) in
  let guild := i_guild interaction in
  match i_user interaction with
  | None => replyOnly reg "Could not resolve user invoking command."
  | Some user =>
      match i_voice interaction with
      | None => replyOnly reg "You must be connected to a voice channel."
      | Some channel =>
          if negb (joinable channel) then
            replyOnly reg "I don't have permission to connect to your voice channel."
          else
            let found := sessions_get guild reg in
            let reg :=
              match found with
              | Some session => store (session_resume session) reg
              | None => reg
              end in
            let found := session_resume <$> found in
            if bool_decide (numArgs = 0) && bool_decide (found = None) then
              replyOnly reg "You must provide at least one argument."
            else
              let '(got, reg, created) :=
                match found with
                | Some session => (inr session, reg, false)
                | None =>
                    let '(r, reg) := sessions_create guild channel reg in
                    (r, reg, true)
                end in
              match got with
              | inl _ => mkResult reg [] (Some (Error "DuplicateSession")) created None
              | inr session =>
                  let session :=
                    if shuffle inputs then session_shuffle rndS session
                    else session in
                  let '(session, rs, e, bg) := playInto E rndQ session inputs in
                  mkResult (store session reg) rs e created bg
              end
      end
  end.

(** The registry over time: commands come in, and the transport layer
    removes a guild's session when its connection is torn down; the
    background resolution of a batch feeds the session of its guild. *)
Inductive Command :=
  | Play (rndS rndQ : list nat) (completed : list string → list string)
         (interaction : Interaction) (inputs : PlayInputs)
  | Teardown (g : string).

Definition exec (E : Env) (reg : list Session) (c : Command) : list Session :=
  match c with
  | Play rndS rndQ completed interaction inputs =>
      let r := play E rndS rndQ interaction inputs reg in
      match background r, sessions_get (i_guild interaction) (registry r) with
      | Some restQueries, Some session =>
          store (target (resolveRest E completed restQueries session))
                (registry r)
      | _, _ => registry r
      end
  | Teardown g => filter (λ s, guild s ≠ g) reg
  end.

(** [numArgs] of [play] (line 129). *)
Definition numArgs (inputs : PlayInputs) : nat :=
  length (filter (λ a, Is_true (truthy a))
                 [vodLink inputs; streamLink inputs; queryStr inputs]).

End Player.

Module ChatGpt.

(** ** Data *)

(** A chat message.  The content of a message that comes back from the API
    may be missing. *)
Record Message := mkMessage {
  role : string;
  content : option string;
}.

#[global] Instance Message_eq_dec : EqDecision Message.
Proof. solve_decision. Defined.

Definition userMessage (query : string) : Message :=
  mkMessage "user" (Some query).

(** The [guildId] argument: [string | null | undefined]. *)
Inductive GuildId :=
  | GuildIdString (s : string)
  | GuildIdNull
  | GuildIdUndefined.

(** What [+] makes of it. *)
Definition guildIdText (guildId : GuildId) : string :=
  match guildId with
  | GuildIdString s => s
  | GuildIdNull => "null"
  | GuildIdUndefined => "undefined"
  end.

(** Line 62. *)
Definition conversationKey (userId : string) (guildId : GuildId) : string :=
  userId +:+ guildIdText guildId.

Inductive Exn :=
  | NotConfigured
  | RateLimited
  | RequestFailed
  | TypeError.

Definition notConfigured : string := "ChatGPT is not configured on the bot.".
Definition somethingWentWrong : string := "Something went wrong. Blame Open AI.".

(** How [openai.createChatCompletion] ended: with the [choices] of the
    response, each with its optional [message], or with a rejection. *)
Inductive Completion :=
  | Completed (choices : list (option Message))
  | Failed.

(** The module's state: the conversation cache, which is [null] unless
    [CHATGPT_CONVERSATION_TIME_LIMIT] is set; the [messages] of every
    request made to the API, oldest first; the calls suspended on a request,
    each with its conversation key and query; and what the finished calls
    gave their callers. *)
Record State := mkState {
  conversations : option (gmap string (list Message));
  sent : list (list Message);
  awaiting : list (string * string);
  replied : list (Exn + string);
}.

Definition init (withConversations : bool) : State :=
  mkState (if withConversations then Some ∅ else None) [] [] [].

(** [conversations?.get(key) ?? []]. *)
Definition conversationOf (key : string) (st : State) : list Message :=
  default [] (conversations st ≫= λ c, c !! key).

(** ** [getChatGptResponse] *)

(** Lines 55-73, up to the second [await].  [apiKey] is the environment
    variable read on line 14, and [admitted] says whether the rate limiter
    lets the attempt through. *)
Inductive Asked :=
  | Threw (e : Exn)
  | Awaiting (conversationKey query : string).

Definition ask (apiKey : option string) (admitted : bool)
    (query userId : string) (guildId : GuildId) (st : State) : Asked * State :=
  match apiKey with
  | None => (Threw NotConfigured, st)
  | Some key =>
      if String.eqb key EmptyString then (Threw NotConfigured, st)
      else if negb admitted then (Threw RateLimited, st)
      else
        let conversationKey := conversationKey userId guildId in
        let conversation := conversationOf conversationKey st in
        (Awaiting conversationKey query,
         mkState (conversations st)
                 (sent st ++ [conversation ++ [userMessage query]])
                 (awaiting st) (replied st))
  end.

(** Lines 74-89, once the request has ended. *)
Definition answer (conversationKey query : string) (c : Completion)
    (st : State) : (Exn + string) * State :=
  match c with
  | Failed => (inl RequestFailed, st)
  | Completed [] => (inl TypeError, st)
  | Completed (responseMessage :: _) =>
      let st' :=
        match responseMessage, conversations st with
        | Some m, Some cache =>
            let conversation := conversationOf conversationKey st in
            mkState (Some (<[conversationKey :=
                             conversation ++ [userMessage query; m]]> cache))
                    (sent st) (awaiting st) (replied st)
        | _, _ => st
        end in
      (inr (match responseMessage ≫= content with
            | Some text =>
                if String.eqb text EmptyString then somethingWentWrong else text
            | None => somethingWentWrong
            end),
       st')
  end.

(** Whether [apiKey] is truthy (line 55). *)
Definition truthy_key (apiKey : option string) : bool :=
  match apiKey with
  | Some key => negb (String.eqb key EmptyString)
  | None => false
  end.

(** Line 100 of [run]: [interaction.guildId || '']. *)
Definition runGuildId (guildId : option string) : GuildId :=
  GuildIdString (default EmptyString guildId).

(** ** Executions *)

Inductive Event :=
  | Ask (apiKey : option string) (admitted : bool)
        (query userId : string) (guildId : GuildId)
  | Answer (i : nat) (c : Completion)
  | Expire (conversationKey : string).

Definition set_awaiting (ws : list (string * string)) (st : State) : State :=
  mkState (conversations st) (sent st) ws (replied st).

Definition reply (r : Exn + string) (st : State) : State :=
  mkState (conversations st) (sent st) (awaiting st) (replied st ++ [r]).

(** [Answer i c] ends the request of the [i]-th suspended call. *)
Definition step (st : State) (ev : Event) : State :=
  match ev with
  | Ask apiKey admitted query userId guildId =>
      match ask apiKey admitted query userId guildId st with
      | (Threw e, st') => reply (inl e) st'
      | (Awaiting key q, st') => set_awaiting (awaiting st' ++ [(key, q)]) st'
      end
  | Answer i c =>
      match awaiting st !! i with
      | Some (key, q) =>
          let '(r, st') := answer key q c (set_awaiting (delete i (awaiting st)) st) in
          reply r st'
      | None => st
      end
  | Expire key =>
      mkState (delete key <$> conversations st) (sent st) (awaiting st)
              (replied st)
  end.

Definition run (st : State) (evs : list Event) : State := foldl step st evs.

(** The query of a call that gets as far as its request (lines 55-73):
    the key is set and the rate limiter lets the attempt through. *)
Definition requested (ev : Event) : option string :=
  match ev with
  | Ask apiKey admitted query _ _ =>
      if truthy_key apiKey && admitted then Some query else None
  | _ => None
  end.

(** A conversation as the code builds it: queries and responses in turn. *)
Fixpoint alternates (conversation : list Message) : Prop :=
  match conversation with
  | [] => True
  | q :: _ :: rest => role q = "user" ∧ is_Some (content q) ∧ alternates rest
  | [_] => False
  end.

End ChatGpt.

(* ===================================================================== *)
(** * Part II: properties                                                 *)
(* ===================================================================== *)

Module AuthFacts.
Import Auth.

(** ** What the continuation of a call touches *)

Lemma promise_all_ext st st' k :
  userRes st' = userRes st → guildsRes st' = guildsRes st →
  promise_all st' k = promise_all st k.
Proof. unfold promise_all. by intros -> ->. Qed.

Lemma continue_cases auth k st :
  match promise_all st k with
  | AllPending => continue auth k st = None
  | AllResolved ud gd =>
      continue auth k st =
        Some (Returned (buildUser (guildCache st) ud gd),
              (finish auth ud gd st).2)
  | AllRejected => continue auth k st = Some (Threw, st)
  end.
Proof. unfold continue. by destruct (promise_all st k). Qed.

Lemma resume_cases st w :
  match promise_all st w.2 with
  | AllPending => resume st w = st
  | AllResolved ud gd =>
      resume st w =
        log w.1 (Returned (buildUser (guildCache st) ud gd))
                (finish w.1 ud gd st).2
  | AllRejected => resume st w = log w.1 Threw st
  end.
Proof.
  unfold resume. pose proof (continue_cases w.1 w.2 st) as H.
  destruct (promise_all st w.2); by rewrite H.
Qed.

(** The fields a resumed call leaves alone. *)
Lemma resume_frame st w :
  let st' := resume st w in
  requests st' = requests st ∧ next st' = next st ∧
  userRes st' = userRes st ∧ guildsRes st' = guildsRes st ∧
  guildCache st' = guildCache st ∧ waiters st' = waiters st.
Proof.
  simpl. pose proof (resume_cases st w) as H.
  destruct (promise_all st w.2); rewrite H; done.
Qed.

Lemma foldl_resume_frame ws st :
  let st' := foldl resume st ws in
  requests st' = requests st ∧ next st' = next st ∧
  userRes st' = userRes st ∧ guildsRes st' = guildsRes st ∧
  guildCache st' = guildCache st ∧ waiters st' = waiters st.
Proof.
  simpl. revert st. induction ws as [|w ws IH]; intros st; [done|].
  simpl. destruct (IH (resume st w)) as (?&?&?&?&?&?).
  destruct (resume_frame st w) as (?&?&?&?&?&?). repeat split; congruence.
Qed.

Lemma foldl_resume_promise_all ws st k :
  promise_all (foldl resume st ws) k = promise_all st k.
Proof.
  destruct (foldl_resume_frame ws st) as (_&_&?&?&_). by apply promise_all_ext.
Qed.

(** A resumed call deletes the map entry of its own token at most, and
    writes the cache of its own token at most. *)
Lemma resume_entry_other st w a :
  a ≠ w.1 →
  discordPromises (resume st w) !! a = discordPromises st !! a ∧
  cache (resume st w) !! a = cache st !! a.
Proof.
  intros Hne. pose proof (resume_cases st w) as H.
  destruct (promise_all st w.2); rewrite H; simpl; [done| |done].
  by rewrite lookup_delete_ne, lookup_insert_ne.
Qed.

Lemma resume_entry_unsettled st w :
  (∀ ud gd, promise_all st w.2 ≠ AllResolved ud gd) →
  discordPromises (resume st w) = discordPromises st ∧
  cache (resume st w) = cache st.
Proof.
  intros Hn. pose proof (resume_cases st w) as H.
  destruct (promise_all st w.2) eqn:E; rewrite H; simpl; [done| |done].
  by destruct (Hn userData guildsData).
Qed.

(** An entry that is there after a resumed call was there before, and what
    the map holds for a token never changes to another array. *)
Lemma resume_entry_mono st w a k :
  discordPromises (resume st w) !! a = Some k →
  discordPromises st !! a = Some k.
Proof.
  pose proof (resume_cases st w) as H.
  destruct (promise_all st w.2); rewrite H; simpl; [done| |done].
  intros Hl. apply lookup_delete_Some in Hl. tauto.
Qed.

Lemma resume_entry_miss st w :
  (∀ a k, discordPromises st !! a = Some k → cache st !! a = None) →
  ∀ a k, discordPromises (resume st w) !! a = Some k →
         cache (resume st w) !! a = None.
Proof.
  intros Hinv a k. pose proof (resume_cases st w) as H.
  destruct (promise_all st w.2); rewrite H; simpl; eauto.
  intros [Hne Hl]%lookup_delete_Some.
  rewrite lookup_insert_ne by done. eauto.
Qed.

(** ** The consistency conditions hold throughout *)

Lemma Inv_init bot : Inv (init bot).
Proof.
  split; simpl; intros; first [done | by exfalso; eapply not_elem_of_nil].
Qed.

Lemma Inv_log auth o st : Inv st → Inv (log auth o st).
Proof. intros []. by split. Qed.

Lemma Inv_clearCache auth st : Inv st → Inv (clearCache auth st).
Proof.
  intros []. split; simpl; try done.
  intros a k Hk. destruct (decide (a = auth)) as [->|].
  - apply lookup_delete_eq.
  - rewrite lookup_delete_ne by done. eauto.
Qed.

Lemma Inv_set_guildCache bot st : Inv st → Inv (set_guildCache bot st).
Proof. intros []. by split. Qed.

(** While a call is suspended on a token, no other suspended call on that
    token awaits a settled array, so waking the settled ones leaves the
    token's map entry and cache entry alone. *)
Lemma foldl_resume_entry ws st a :
  (∀ w, w ∈ ws → w.1 = a → ∀ ud gd, promise_all st w.2 ≠ AllResolved ud gd) →
  discordPromises (foldl resume st ws) !! a = discordPromises st !! a ∧
  cache (foldl resume st ws) !! a = cache st !! a.
Proof.
  revert st. induction ws as [|w ws IH]; intros st Hp; [done|]. simpl.
  assert (discordPromises (resume st w) !! a = discordPromises st !! a ∧
          cache (resume st w) !! a = cache st !! a) as [E1 E2].
  { destruct (decide (w.1 = a)) as [Hw|Hw].
    - destruct (resume_entry_unsettled st w) as [-> ->]; [|done].
      apply Hp; [left|done].
    - by apply resume_entry_other. }
  destruct (IH (resume st w)) as [E3 E4].
  { intros w' Hin Hw'. destruct (resume_frame st w) as (_&_&?&?&_).
    rewrite (promise_all_ext st) by done. apply Hp; [by right|done]. }
  split; congruence.
Qed.

Lemma foldl_resume_entry_mono ws st a k :
  discordPromises (foldl resume st ws) !! a = Some k →
  discordPromises st !! a = Some k.
Proof.
  revert st. induction ws as [|w ws IH]; intros st; [done|]. simpl.
  intros H. by apply (resume_entry_mono st w), IH.
Qed.

Lemma foldl_resume_entry_miss ws st :
  (∀ a k, discordPromises st !! a = Some k → cache st !! a = None) →
  ∀ a k, discordPromises (foldl resume st ws) !! a = Some k →
         cache (foldl resume st ws) !! a = None.
Proof.
  revert st. induction ws as [|w ws IH]; intros st H; [done|]. simpl.
  apply IH. by apply resume_entry_miss.
Qed.

Lemma Inv_wake st :
  (∀ a k, (a, k) ∈ waiters st → discordPromises st !! a = Some k) →
  (∀ a k, discordPromises st !! a = Some k → cache st !! a = None) →
  (∀ a k, discordPromises st !! a = Some k → k < next st) →
  (∀ k, next st ≤ k → userRes st !! k = None) →
  (∀ k, next st ≤ k → guildsRes st !! k = None) →
  Inv (wake st).
Proof.
  intros Hwe Hem Hlt Hfu Hfg. unfold wake.
  destruct (foldl_resume_frame (waiters st) st) as (Hrq&Hnx&Hu&Hg&Hb&Hw).
  split; simpl.
  - intros a k [Hpend Hin]%list_elem_of_filter.
    destruct (foldl_resume_entry (waiters st) st a) as [-> _]; [|by apply Hwe].
    intros [a' k'] Hin' Ha'; simpl in *; subst a'.
    pose proof (Hwe _ _ Hin) as E1. pose proof (Hwe _ _ Hin') as E2.
    assert (k' = k) as -> by congruence.
    unfold is_pending in Hpend; simpl in Hpend. by rewrite Hpend.
  - intros a k [Hpend Hin]%list_elem_of_filter.
    unfold promise_all; simpl. rewrite Hu, Hg. exact Hpend.
  - by apply foldl_resume_entry_miss.
  - intros a k Hk%foldl_resume_entry_mono. rewrite Hnx. eauto.
  - intros k. rewrite Hnx, Hu. apply Hfu.
  - intros k. rewrite Hnx, Hg. apply Hfg.
Qed.

(** A call made while the token's array is stored and pending: no request,
    no change but the new suspended call. *)
Lemma call_joins auth k st :
  inherited auth = false →
  cache st !! auth = None →
  discordPromises st !! auth = Some k →
  promise_all st k = AllPending →
  getUserFromAuthToken auth st = (None, park auth k st).
Proof.
  intros Hi Hc He Hp. unfold getUserFromAuthToken, begin. rewrite Hc, Hi, He.
  pose proof (continue_cases auth k st) as H. rewrite Hp in H. by rewrite H.
Qed.

(** A call made after the token's lookup failed: it throws, and the state is
    as before. *)
Lemma call_failed auth k st :
  cache st !! auth = None →
  Failed auth k st →
  getUserFromAuthToken auth st = (Some Threw, st).
Proof.
  intros Hc [He Hp]. unfold getUserFromAuthToken, begin. rewrite Hc.
  destruct (inherited auth); [done|]. rewrite He.
  pose proof (continue_cases auth k st) as H. rewrite Hp in H. by rewrite H.
Qed.

Lemma Inv_call auth st : Inv st → Inv (call auth st).
Proof.
  intros HI. unfold call, getUserFromAuthToken, begin.
  destruct (cache st !! auth) as [u|] eqn:Hc; [by apply Inv_log|].
  destruct (inherited auth); [by apply Inv_log|].
  destruct (discordPromises st !! auth) as [k|] eqn:He.
  - pose proof (continue_cases auth k st) as H.
    destruct (promise_all st k) as [|ud gd|] eqn:Hp; rewrite H.
    + destruct HI. split; simpl; try done.
      * intros a k' [?|[=]%list_elem_of_singleton]%elem_of_app; simplify_eq; eauto.
      * intros a k' [?|[=]%list_elem_of_singleton]%elem_of_app; simplify_eq; eauto.
    + apply Inv_log. destruct HI as [Hwe Hwp Hem Hlt Hfu Hfg]. split; simpl; try done.
      * intros a k' Hin. rewrite lookup_delete_ne; [by apply Hwe|].
        intros <-. pose proof (Hwe _ _ Hin). simplify_eq.
        pose proof (Hwp _ _ Hin). congruence.
      * intros a k' [Hne Hl]%lookup_delete_Some.
        rewrite lookup_insert_ne by done. eauto.
      * intros a k' [Hne Hl]%lookup_delete_Some. eauto.
    + by apply Inv_log.
  - destruct HI as [Hwe Hwp Hem Hlt Hfu Hfg].
    unfold continue, promise_all; simpl.
    rewrite (Hfu (next st)), (Hfg (next st)) by lia.
    split; simpl.
    + intros a k' [Hin|[=]%list_elem_of_singleton]%elem_of_app; simplify_eq.
      * rewrite lookup_insert_ne; [by apply Hwe|].
        intros <-. pose proof (Hwe _ _ Hin). congruence.
      * apply lookup_insert_eq.
    + intros a k' [Hin|[=]%list_elem_of_singleton]%elem_of_app; simplify_eq.
      * by apply (Hwp a).
      * unfold promise_all; simpl.
        by rewrite (Hfu (next st)), (Hfg (next st)) by lia.
    + intros a k' Hl. destruct (decide (a = auth)) as [->|]; [done|].
      rewrite lookup_insert_ne in Hl by done. eauto.
    + intros a k' Hl. destruct (decide (a = auth)) as [->|].
      * rewrite lookup_insert_eq in Hl. simplify_eq. lia.
      * rewrite lookup_insert_ne in Hl by done. apply Hlt in Hl. lia.
    + intros k' ?. apply Hfu. lia.
    + intros k' ?. apply Hfg. lia.
Qed.

Lemma Inv_step st ev : Inv st → Inv (step st ev).
Proof.
  intros HI. destruct ev as [auth|k o|k o|auth|auth|g|g]; simpl.
  - by apply Inv_call.
  - case_decide as Hk; [|done]. destruct Hk as [Hlt Hnone].
    destruct HI as [Hwe Hwp Hem Hel Hfu Hfg]. apply Inv_wake; simpl; try done.
    intros k' ?. rewrite lookup_insert_ne by lia. by apply Hfu.
  - case_decide as Hk; [|done]. destruct Hk as [Hlt Hnone].
    destruct HI as [Hwe Hwp Hem Hel Hfu Hfg]. apply Inv_wake; simpl; try done.
    intros k' ?. rewrite lookup_insert_ne by lia. by apply Hfg.
  - by apply Inv_clearCache.
  - by apply Inv_clearCache.
  - by apply Inv_set_guildCache.
  - by apply Inv_set_guildCache.
Qed.

Lemma Inv_run st evs : Inv st → Inv (run st evs).
Proof.
  revert st. induction evs as [|ev evs IH]; intros st HI; [done|].
  simpl. by apply IH, Inv_step.
Qed.

(** Tokens that name an inherited member never get an entry or a cached
    user. *)
Lemma Own_init bot : Own (init bot).
Proof. split; simpl; intros; by simplify_map_eq. Qed.

Lemma Own_resume st w : inherited w.1 = false → Own st → Own (resume st w).
Proof.
  intros Hw [Ho Hc]. pose proof (resume_cases st w) as H.
  destruct (promise_all st w.2); rewrite H; simpl; [done| |done].
  split; simpl.
  - intros a k [_ ?]%lookup_delete_Some. eauto.
  - intros a u Hl. destruct (decide (a = w.1)) as [->|]; [done|].
    rewrite lookup_insert_ne in Hl by done. eauto.
Qed.

Lemma Own_wake st0 st :
  Inv st0 → Own st0 → waiters st = waiters st0 → Own st → Own (wake st).
Proof.
  intros HI [Ho0 _] Hw HO.
  assert (∀ w, w ∈ waiters st → inherited w.1 = false) as Hws.
  { intros [a k] Hin. rewrite Hw in Hin.
    apply (Ho0 a k), (waiter_entry st0 HI _ _ Hin). }
  assert (∀ ws st1, (∀ w, w ∈ ws → inherited w.1 = false) → Own st1 →
            Own (foldl resume st1 ws)) as Hfold.
  { induction ws as [|w ws IH]; intros st1 Hin HO1; [done|]. simpl.
    apply IH; [intros; apply Hin; by right|].
    apply Own_resume; [apply Hin; left|done]. }
  destruct (Hfold (waiters st) st Hws HO) as [H1 H2]. by split.
Qed.

Lemma Own_call auth st : Own st → Own (call auth st).
Proof.
  intros [Ho Hc]. unfold call, getUserFromAuthToken, begin.
  destruct (cache st !! auth) as [u|]; [done|].
  destruct (inherited auth) eqn:Hi; [done|].
  destruct (discordPromises st !! auth) as [k|].
  - pose proof (continue_cases auth k st) as H.
    destruct (promise_all st k); rewrite H; simpl; [done| |done].
    split; simpl.
    + intros a k' [_ ?]%lookup_delete_Some. eauto.
    + intros a u Hl. destruct (decide (a = auth)) as [->|]; [done|].
      rewrite lookup_insert_ne in Hl by done. eauto.
  - match goal with |- context [continue auth ?k ?s] =>
      pose proof (continue_cases auth k s) as H;
      destruct (promise_all s k); rewrite H
    end; simpl; split; simpl.
    all: try (intros a k' Hl; destruct (decide (a = auth)) as [->|]; [done|];
              rewrite lookup_insert_ne in Hl by done; by eauto).
    all: try (intros a k' [Hne Hl]%lookup_delete_Some;
              rewrite lookup_insert_ne in Hl by done; by eauto).
    all: try done.
Qed.

Lemma Own_step st ev : Inv st → Own st → Own (step st ev).
Proof.
  intros HI HO. destruct ev as [auth|k o|k o|auth|auth|g|g]; simpl; try done.
  - by apply Own_call.
  - case_decide; [|done]. by apply (Own_wake st).
  - case_decide; [|done]. by apply (Own_wake st).
  - destruct HO as [Ho Hc]. split; simpl; [done|].
    intros a u [_ ?]%lookup_delete_Some. eauto.
  - destruct HO as [Ho Hc]. split; simpl; [done|].
    intros a u [_ ?]%lookup_delete_Some. eauto.
Qed.

Lemma Own_run st evs : Inv st → Own st → Own (run st evs).
Proof.
  revert st. induction evs as [|ev evs IH]; intros st HI HO; [done|].
  simpl. apply IH; [by apply Inv_step|by apply Own_step].
Qed.

(** ** A settled rejection is final *)

Lemma call_frame a st :
  userRes (call a st) = userRes st ∧ guildsRes (call a st) = guildsRes st ∧
  ∀ b, b ≠ a →
    discordPromises (call a st) !! b = discordPromises st !! b ∧
    cache (call a st) !! b = cache st !! b.
Proof.
  unfold call, getUserFromAuthToken, begin.
  destruct (cache st !! a) as [u|]; [done|].
  destruct (inherited a); [done|].
  destruct (discordPromises st !! a) as [k|].
  - pose proof (continue_cases a k st) as H.
    destruct (promise_all st k); rewrite H; simpl; repeat split; try done.
    + by rewrite lookup_delete_ne.
    + by rewrite lookup_insert_ne.
  - match goal with |- context [continue a ?k ?s] =>
      pose proof (continue_cases a k s) as H;
      destruct (promise_all s k); rewrite H
    end; simpl; repeat split; try done;
      by rewrite ?lookup_delete_ne, ?lookup_insert_ne.
Qed.

Lemma rejected_settleUser st k k0 o :
  userRes st !! k0 = None → promise_all st k = AllRejected →
  promise_all (settleUser k0 o st) k = AllRejected.
Proof.
  unfold promise_all; simpl. intros Hn. destruct (decide (k = k0)) as [->|].
  - rewrite Hn, lookup_insert_eq.
    destruct o, (guildsRes st !! k0) as [[]|]; done.
  - by rewrite lookup_insert_ne.
Qed.

Lemma rejected_settleGuilds st k k0 o :
  guildsRes st !! k0 = None → promise_all st k = AllRejected →
  promise_all (settleGuilds k0 o st) k = AllRejected.
Proof.
  unfold promise_all; simpl. intros Hn. destruct (decide (k = k0)) as [->|].
  - rewrite Hn, lookup_insert_eq.
    destruct o, (userRes st !! k0) as [[]|]; done.
  - by rewrite lookup_insert_ne.
Qed.

Lemma Failed_no_waiter auth k st w :
  Inv st → Failed auth k st → w ∈ waiters st → w.1 ≠ auth.
Proof.
  intros HI [He Hp] Hin Hw. destruct w as [a k']; simpl in *; subst a.
  pose proof (waiter_entry st HI _ _ Hin).
  pose proof (waiter_pending st HI _ _ Hin). congruence.
Qed.

Lemma Failed_wake auth k st0 st :
  Inv st0 → Failed auth k st0 →
  waiters st = waiters st0 →
  Failed auth k st → Failed auth k (wake st).
Proof.
  intros HI HF0 Hw [He Hp]. unfold wake, Failed; simpl. split.
  - destruct (foldl_resume_entry (waiters st) st auth) as [-> _]; [|done].
    intros w Hin Ha. rewrite Hw in Hin.
    by destruct (Failed_no_waiter auth k st0 w).
  - destruct (foldl_resume_frame (waiters st) st) as (_&_&Hu&Hg&_).
    unfold promise_all in *; simpl. by rewrite Hu, Hg.
Qed.

Lemma Failed_step auth k st ev :
  Inv st → Failed auth k st → Failed auth k (step st ev).
Proof.
  intros HI HF. pose proof HF as [He Hp].
  destruct ev as [a|k0 o|k0 o|a|a|g|g]; simpl; try done.
  - destruct (call_frame a st) as (Hu & Hg & Hother).
    destruct (decide (a = auth)) as [->|Hne].
    + unfold call. rewrite (call_failed auth k st); [done| |done].
      by apply (entry_miss st HI _ k).
    + destruct (Hother auth) as [E _]; [done|]. split; [congruence|].
      by rewrite (promise_all_ext st).
  - case_decide as Hk; [|done]. destruct Hk as [_ Hnone].
    apply (Failed_wake auth k st); try done.
    split; [done|]. by apply rejected_settleUser.
  - case_decide as Hk; [|done]. destruct Hk as [_ Hnone].
    apply (Failed_wake auth k st); try done.
    split; [done|]. by apply rejected_settleGuilds.
Qed.

Lemma Failed_run auth k st evs :
  Inv st → Failed auth k st → Failed auth k (run st evs).
Proof.
  revert st. induction evs as [|ev evs IH]; intros st HI HF; [done|].
  simpl. apply IH; [by apply Inv_step|by apply Failed_step].
Qed.

(** How a lookup fails: one of the two requests of the stored array is
    rejected.  The calls suspended on the array throw, and the entry stays. *)
Lemma reject_fails auth k st ev :
  Inv st → discordPromises st !! auth = Some k →
  (ev = SettleUser k Rejected ∧ userRes st !! k = None) ∨
  (ev = SettleGuilds k Rejected ∧ guildsRes st !! k = None) →
  Failed auth k (step st ev).
Proof.
  intros HI He Hev.
  assert (∀ st1, waiters st1 = waiters st →
                 discordPromises st1 = discordPromises st →
                 promise_all st1 k = AllRejected →
                 Failed auth k (wake st1)) as Hwake.
  { intros st1 Hw Hd Hrej. unfold wake, Failed; simpl.
    destruct (foldl_resume_frame (waiters st1) st1) as (_&_&Hu&Hg&_). split.
    - destruct (foldl_resume_entry (waiters st1) st1 auth) as [E _];
        [|by rewrite E, Hd].
      intros [a k'] Hin Ha ud gd. simpl in *. subst a. rewrite Hw in Hin.
      pose proof (waiter_entry st HI _ _ Hin). simplify_eq. by rewrite Hrej.
    - unfold promise_all in *; simpl. by rewrite Hu, Hg. }
  destruct Hev as [[-> Hn]|[-> Hn]]; simpl.
  - rewrite decide_True by (split; [by apply (entry_lt st HI auth)|done]).
    apply Hwake; [done..|]. unfold promise_all; simpl.
    by rewrite lookup_insert_eq.
  - rewrite decide_True by (split; [by apply (entry_lt st HI auth)|done]).
    apply Hwake; [done..|]. unfold promise_all; simpl.
    rewrite lookup_insert_eq. by destruct (userRes st !! k) as [[]|].
Qed.

(** ** What a finished call returned *)

Lemma promise_all_resolved st k ud gd :
  promise_all st k = AllResolved ud gd →
  userRes st !! k = Some (Resolved ud) ∧ guildsRes st !! k = Some (Resolved gd).
Proof.
  unfold promise_all.
  destruct (userRes st !! k) as [[]|], (guildsRes st !! k) as [[]|];
    intros; by simplify_eq.
Qed.

Lemma foldl_resume_returned ws st :
  ∃ new,
    returned (foldl resume st ws) = returned st ++ new ∧
    ∀ a u, (a, Returned u) ∈ new →
      ∃ k ud gd, (a, k) ∈ ws ∧ promise_all st k = AllResolved ud gd ∧
                 u = buildUser (guildCache st) ud gd.
Proof.
  revert st. induction ws as [|w ws IH]; intros st.
  { exists []. split; [by rewrite app_nil_r|]. by intros ?? ?%not_elem_of_nil. }
  simpl. destruct (IH (resume st w)) as (new & Hret & Hnew).
  destruct (resume_frame st w) as (_&_&Hu&Hg&Hb&_).
  assert (∀ a u, (a, Returned u) ∈ new →
            ∃ k ud gd, (a, k) ∈ w :: ws ∧ promise_all st k = AllResolved ud gd ∧
                       u = buildUser (guildCache st) ud gd) as Hnew'.
  { intros a u (k & ud & gd & ? & Hp & ->)%Hnew. exists k, ud, gd.
    rewrite <-Hb, <-(promise_all_ext st (resume st w)) by done.
    split; [by right|done]. }
  pose proof (resume_cases st w) as H. rewrite Hret.
  destruct (promise_all st w.2) as [|ud gd|] eqn:Hp; rewrite H.
  - by exists new.
  - exists ((w.1, Returned (buildUser (guildCache st) ud gd)) :: new).
    split; [by simpl; rewrite <-app_assoc|].
    intros a u [[= -> ->]|Hin]%elem_of_cons; [|by apply Hnew'].
    exists w.2, ud, gd. split; [|done]. destruct w; left.
  - exists ((w.1, Threw) :: new).
    split; [by simpl; rewrite <-app_assoc|].
    intros a u [[=]|Hin]%elem_of_cons. by apply Hnew'.
Qed.

(** ** Properties of [getUserFromAuthToken] *)

(** Three handlers asking for the same token at once make two requests. *)
Example three_callers_two_requests :
  let st := run (init ∅) [Call "token"; Call "token"; Call "token"] in
  requests st = [mkRequest users_me "token"; mkRequest users_me_guilds "token"] ∧
  waiters st = [("token", 0); ("token", 0); ("token", 0)].
Proof. split; reflexivity. Qed.

(** C5.  Single flight.  At any point of any execution, if a call for
    [auth] is suspended on the array [k], then [k] is the array stored in
    [discordPromises] for [auth], every suspended call for [auth] awaits
    that same array, and one more call for [auth] issues no request: it
    leaves the state as it is and suspends on [k] too. *)
Theorem single_flight bot evs auth k :
  let st := run (init bot) evs in
  (auth, k) ∈ waiters st →
  discordPromises st !! auth = Some k ∧
  (∀ k', (auth, k') ∈ waiters st → k' = k) ∧
  getUserFromAuthToken auth st = (None, park auth k st) ∧
  requests (call auth st) = requests st ∧
  waiters (call auth st) = waiters st ++ [(auth, k)].
Proof.
  intros st Hin.
  assert (Inv st) as HI by apply Inv_run, Inv_init.
  assert (Own st) as [HO _] by (apply Own_run; [apply Inv_init|apply Own_init]).
  pose proof (waiter_entry st HI _ _ Hin) as He.
  pose proof (waiter_pending st HI _ _ Hin) as Hp.
  pose proof (entry_miss st HI _ _ He) as Hc.
  pose proof (call_joins auth k st (HO _ _ He) Hc He Hp) as Hcall.
  split; [done|]. split.
  { intros k' Hin'. pose proof (waiter_entry st HI _ _ Hin'). congruence. }
  split; [done|]. unfold call. by rewrite Hcall.
Qed.

Lemma single_flight_witness :
  let st := run (init ∅) [Call "token"; Call "token"] in
  ("token", 0) ∈ waiters st ∧
  getUserFromAuthToken "token" st = (None, park "token" 0 st) ∧
  requests (call "token" st) = requests st.
Proof.
  assert (("token", 0) ∈ waiters (run (init ∅) [Call "token"; Call "token"]))
    as Hin by (vm_compute; left).
  split; [exact Hin|].
  destruct (single_flight ∅ [Call "token"; Call "token"] "token" 0 Hin)
    as (_ & _ & H1 & H2 & _).
  split; [exact H1|exact H2].
Defined.

(** C8.  A failed lookup sticks.  Once the array stored for [auth] has a
    rejected promise, it stays stored whatever happens next, and every later
    call for [auth] throws, issues no request and leaves the state as it
    is. *)
Theorem failed_lookup_sticks bot evs auth k evs' :
  let st := run (init bot) evs in
  Failed auth k st →
  let st' := run st evs' in
  Failed auth k st' ∧
  getUserFromAuthToken auth st' = (Some Threw, st') ∧
  requests (call auth st') = requests st' ∧
  discordPromises (call auth st') = discordPromises st' ∧
  returned (call auth st') = returned st' ++ [(auth, Threw)].
Proof.
  intros st HF st'.
  assert (Inv st) as HI by apply Inv_run, Inv_init.
  assert (Inv st') as HI' by by apply Inv_run.
  assert (Failed auth k st') as HF' by by apply Failed_run.
  assert (getUserFromAuthToken auth st' = (Some Threw, st')) as Hcall.
  { apply (call_failed auth k); [|done].
    destruct HF' as [He _]. by apply (entry_miss st' HI' _ k). }
  split; [done|]. split; [done|]. unfold call. by rewrite Hcall.
Qed.

Lemma failed_lookup_sticks_witness :
  let st := run (init ∅) [Call "token"; SettleGuilds 0 Rejected] in
  let st' := run st [ClearCache "token"; Call "other";
                     SettleUser 0 (Resolved (mkRawUser "1" "u" "0001" "a" []))] in
  Failed "token" 0 st ∧
  getUserFromAuthToken "token" st' = (Some Threw, st').
Proof.
  assert (Failed "token" 0
            (run (init ∅) [Call "token"; SettleGuilds 0 Rejected])) as HF
    by (split; vm_compute; reflexivity).
  split; [exact HF|].
  destruct (failed_lookup_sticks ∅ [Call "token"; SettleGuilds 0 Rejected]
              "token" 0
              [ClearCache "token"; Call "other";
               SettleUser 0 (Resolved (mkRawUser "1" "u" "0001" "a" []))] HF)
    as (_ & H & _).
  exact H.
Defined.

(** C9, as stated, fails on a call answered from the cache.  The bot is in
    guild "g1" when the lookup for "token" completes, so the cached user
    lists "g1"; the bot then leaves "g1", and the next call within the
    cache's lifetime still returns the user with "g1". *)
Lemma cached_user_lists_left_guild :
  let st := run (init {["g1"]}) stale_trace in
  let u := mkUser "1" "u" "0001" "a" [mkGuild "g1" "Guild" "icon"] in
  getUserFromAuthToken "token" st = (Some (Returned u), st) ∧
  mkGuild "g1" "Guild" "icon" ∈ guilds u ∧
  guild_id (mkGuild "g1" "Guild" "icon") ∉ guildCache st.
Proof.
  split; [by vm_compute|]. split; [left|].
  apply (bool_decide_unpack _). by vm_compute.
Qed.

(** C9, amended.  At any point of any execution, a call that returns a user
    either returns the user stored in the cache for its token, as stored, or
    has awaited the array stored for its token and returns exactly the
    guilds of the [/users/@me/guilds] response whose id is in the bot's
    guild cache at that moment, each reduced to id, name and icon. *)
Theorem returned_guilds bot evs ev auth u :
  let st := run (init bot) evs in
  (auth, Returned u) ∈ drop (length (returned st)) (returned (step st ev)) →
  cache st !! auth = Some u ∨
  ∃ k guildsData,
    discordPromises st !! auth = Some k ∧
    guildsRes (step st ev) !! k = Some (Resolved guildsData) ∧
    guilds u =
      toGuild <$> filter (λ guild, rg_id guild ∈ guildCache st) guildsData.
Proof.
  intros st.
  assert (Inv st) as HI by apply Inv_run, Inv_init.
  assert (∀ st1,
            (auth, Returned u) ∈
              drop (length (returned st)) (returned (wake st1)) →
            waiters st1 = waiters st → returned st1 = returned st →
            guildCache st1 = guildCache st →
            ∃ k guildsData,
              discordPromises st !! auth = Some k ∧
              guildsRes (wake st1) !! k = Some (Resolved guildsData) ∧
              guilds u =
                toGuild <$> filter (λ guild, rg_id guild ∈ guildCache st)
                                   guildsData) as Hwake.
  { intros st1 Hin Hw Hr Hb. unfold wake in *; simpl in *.
    destruct (foldl_resume_returned (waiters st1) st1) as (new & Hret & Hnew).
    destruct (foldl_resume_frame (waiters st1) st1) as (_&_&_&Hg&_).
    rewrite Hret, Hr, drop_app_length in Hin.
    destruct (Hnew _ _ Hin) as (k & ud & gd & Hk & Hp & ->).
    exists k, gd. rewrite Hw in Hk.
    split; [by apply (waiter_entry st HI)|].
    split; [rewrite Hg; by apply promise_all_resolved in Hp as [_ ?]|].
    by rewrite Hb. }
  destruct ev as [a|k o|k o|a|a|g|g]; simpl;
    try (rewrite drop_all; by intros ?%not_elem_of_nil).
  - unfold call, getUserFromAuthToken, begin.
    destruct (cache st !! a) as [u0|] eqn:Hc.
    { simpl. rewrite drop_app_length.
      intros [= -> ->]%list_elem_of_singleton. by left. }
    destruct (inherited a).
    { simpl. rewrite drop_app_length. by intros [=]%list_elem_of_singleton. }
    destruct (discordPromises st !! a) as [k|] eqn:He.
    + pose proof (continue_cases a k st) as H.
      destruct (promise_all st k) as [|ud gd|] eqn:Hp; rewrite H; simpl.
      * rewrite drop_all. by intros ?%not_elem_of_nil.
      * rewrite drop_app_length. intros [= -> ->]%list_elem_of_singleton.
        right. exists k, gd. split; [done|].
        split; [by apply promise_all_resolved in Hp as [_ ?]|done].
      * rewrite drop_app_length. by intros [=]%list_elem_of_singleton.
    + unfold continue, promise_all; simpl.
      rewrite (fresh_user st HI (next st)), (fresh_guilds st HI (next st)) by lia.
      simpl. rewrite drop_all. by intros ?%not_elem_of_nil.
  - case_decide; [|rewrite drop_all; by intros ?%not_elem_of_nil].
    intros Hin. right. by apply Hwake.
  - case_decide; [|rewrite drop_all; by intros ?%not_elem_of_nil].
    intros Hin. right. by apply Hwake.
Qed.

Lemma returned_guilds_witness :
  let evs := [Call "token";
              SettleUser 0 (Resolved (mkRawUser "1" "u" "0001" "a" []))] in
  let ev := SettleGuilds 0 (Resolved [mkRawGuild "g1" "Guild" "icon" [];
                                      mkRawGuild "g2" "Other" "icon" []]) in
  let u := mkUser "1" "u" "0001" "a" [mkGuild "g1" "Guild" "icon"] in
  let st := run (init {["g1"]}) evs in
  (("token", Returned u)
     ∈ drop (length (returned st)) (returned (step st ev))) ∧
  (cache st !! "token" = Some u ∨
   ∃ k guildsData,
     discordPromises st !! "token" = Some k ∧
     guildsRes (step st ev) !! k = Some (Resolved guildsData) ∧
     guilds u =
       toGuild <$> filter (λ guild, rg_id guild ∈ guildCache st) guildsData).
Proof.
  intros evs ev u st.
  assert (("token", Returned u)
            ∈ drop (length (returned st)) (returned (step st ev))) as Hin
    by (vm_compute; left).
  split; [exact Hin|].
  exact (returned_guilds {["g1"]} evs ev "token" u Hin).
Defined.

End AuthFacts.

Module PlayerFacts.
Import Player.

(** ** Session and queue *)

Lemma session_enqueue_idle tracks front s :
  currentTrack s = None → queue s = [] →
  session_enqueue tracks front s =
    (false, mkSession (guild s) (channel s) (tail tracks) (head tracks)
                      (shuffled s) (paused s)).
Proof.
  intros Hc Hq. unfold session_enqueue, advance, set_queue, append.
  rewrite Hc, Hq. simpl. rewrite app_nil_r.
  destruct front, tracks; done.
Qed.

Lemma session_enqueue_playing tracks front s c :
  currentTrack s = Some c →
  session_enqueue tracks front s =
    (true, set_queue (append tracks front (queue s)) s).
Proof. intros Hc. unfold session_enqueue. by rewrite Hc. Qed.

Lemma enqueueAll_playing ops s c :
  currentTrack s = Some c →
  (enqueueAll ops s).1 = replicate (length ops) true ∧
  currentTrack (enqueueAll ops s).2 = Some c.
Proof.
  revert s. induction ops as [|[tracks front] ops IH]; intros s Hc; [done|].
  cbn [enqueueAll]. rewrite (session_enqueue_playing _ _ _ c Hc).
  destruct (IH (set_queue (append tracks front (queue s)) s) Hc) as [E1 E2].
  destruct (enqueueAll ops _) as [rest s']. simpl in *. by rewrite E1.
Qed.

(** The session that [enqueue] of [play.ts] leaves is the one
    [session.enqueue] made, and its [wasPlayingAnything] is what
    [session.enqueue] returns. *)
Lemma enqueue_session E s tracks front :
  (enqueue E s tracks front).1 = (session_enqueue tracks front s).2.
Proof.
  unfold enqueue. destruct tracks as [|t tracks]; [done|].
  destruct (getVideoDetails E t); [|done].
  repeat (case_match; try done).
Qed.

(** C3.  On an idle session (no current track, empty queue) the first
    enqueue returns [wasAlreadyPlaying = false] and makes the head of the
    enqueued tracks the current track, the rest the queue; an enqueue made
    while a track is current returns [true] and keeps that track current;
    so after a first enqueue of at least one track, every later enqueue of
    the sequence returns [true]. *)
Theorem first_enqueue_starts_playback s tracks front ops :
  currentTrack s = None → queue s = [] →
  let r := session_enqueue tracks front s in
  r.1 = false ∧
  currentTrack r.2 = head tracks ∧
  queue r.2 = tail tracks ∧
  (∀ s' tracks' front',
     is_Some (currentTrack s') →
     (session_enqueue tracks' front' s').1 = true ∧
     currentTrack (session_enqueue tracks' front' s').2 = currentTrack s') ∧
  (tracks ≠ [] → (enqueueAll ops r.2).1 = replicate (length ops) true).
Proof.
  intros Hc Hq r. unfold r. rewrite (session_enqueue_idle _ _ _ Hc Hq).
  cbn [fst snd currentTrack queue].
  split; [done|]. split; [done|]. split; [done|]. split.
  - intros s' tracks' front' [c Hs].
    by rewrite (session_enqueue_playing _ _ _ c Hs).
  - intros Hne. destruct tracks as [|t tracks]; [done|].
    by apply (enqueueAll_playing _ _ t).
Qed.

Lemma first_enqueue_starts_playback_witness :
  let A := mkTrack "a" YOUTUBE_VOD in
  let B := mkTrack "b" YOUTUBE_VOD in
  let s := newSession "guild" (mkChannel "voice" true) in
  let r := session_enqueue [A; B] false s in
  r.1 = false ∧ currentTrack r.2 = Some A ∧ queue r.2 = [B] ∧
  (enqueueAll [([B], true); ([A], false)] r.2).1 = [true; true].
Proof.
  intros A B s r.
  destruct (first_enqueue_starts_playback s [A; B] false
              [([B], true); ([A], false)] eq_refl eq_refl)
    as (H1 & H2 & H3 & _ & H5).
  split; [exact H1|]. split; [exact H2|]. split; [exact H3|].
  apply H5. discriminate.
Defined.

(** C4.  While a track is current, [pushToFront = true] puts the new
    tracks at the front of the queue, immediately after the current track,
    and [pushToFront = false] puts them at the tail; the current track stays.
    A single track so queued is reported at the position it has in the
    queue.  Example: after [A; B; C] on a new session and then [D] to the
    front, the queue is [D; B; C] with [A] still current. *)
Theorem enqueue_places_tracks E s tracks c :
  currentTrack s = Some c →
  let sf := (enqueue E s tracks true).1 in
  let sb := (enqueue E s tracks false).1 in
  currentTrack sf = Some c ∧ queue sf = tracks ++ queue s ∧
  currentTrack sb = Some c ∧ queue sb = queue s ++ tracks ∧
  (∀ (t : Track) (vd : VideoDetails) (front : bool),
     getVideoDetails E t = Some vd →
     let p := if front then 1 else S (length (queue s)) in
     (enqueue E s [t] front).2 =
       inr (mkEmbed None
              (Some ("Queued at position #" +:+ pretty p +:+ ": " +:+ title vd))
              None) ∧
     queue (enqueue E s [t] front).1 !! (p - 1) = Some t) ∧
  (∀ (A B C D : Track) (g : string) (ch : Channel),
     let s1 := (enqueue E (newSession g ch) [A; B; C] false).1 in
     let s2 := (enqueue E s1 [D] true).1 in
     currentTrack s1 = Some A ∧ queue s1 = [B; C] ∧
     currentTrack s2 = Some A ∧ queue s2 = [D; B; C]).
Proof.
  intros Hc sf sb. unfold sf, sb. rewrite !enqueue_session.
  rewrite !(session_enqueue_playing _ _ _ c Hc).
  split; [done|]. split; [done|]. split; [done|]. split; [done|]. split.
  - intros t vd front Hvd. split.
    + unfold enqueue, getCurrentTrack. rewrite Hc, Hvd.
      rewrite (session_enqueue_playing _ _ _ c Hc). cbn [snd length].
      rewrite bool_decide_eq_true_2 by eauto.
      rewrite (bool_decide_eq_false_2 (1 < 1)) by lia. cbn [andb].
      destruct front; [done|].
      cbn [set_queue queue append]. rewrite length_app. cbn [length].
      by rewrite Nat.add_1_r.
    + rewrite enqueue_session, (session_enqueue_playing _ _ _ c Hc).
      destruct front; cbn [snd set_queue queue append]; [done|].
      rewrite lookup_app_r by lia.
      by replace (S (length (queue s)) - 1 - length (queue s)) with 0 by lia.
  - intros A B C D g ch. rewrite !enqueue_session. done.
Qed.

Lemma enqueue_places_tracks_witness :
  let E := exampleEnv in
  let A := mkTrack "a" YOUTUBE_VOD in
  let B := mkTrack "b" YOUTUBE_VOD in
  let D := mkTrack "d" YOUTUBE_VOD in
  let s := mkSession "guild" (mkChannel "voice" true) [B] (Some A) false false in
  queue (enqueue E s [D] true).1 = [D; B] ∧
  queue (enqueue E s [D] false).1 = [B; D] ∧
  (enqueue E s [D] false).2 =
    inr (mkEmbed None (Some "Queued at position #2: d") None).
Proof.
  intros E A B D s.
  destruct (enqueue_places_tracks E s [D] A eq_refl)
    as (_ & H1 & _ & H2 & H3 & _).
  split; [exact H1|]. split; [exact H2|].
  exact (proj1 (H3 D (mkVideoDetails "d" 60) false eq_refl)).
Defined.

(** ** Shuffling *)

Lemma swap_Permutation {A} (l : list A) i j : swap l i j ≡ₚ l.
Proof.
  unfold swap. destruct (l !! i) as [x|] eqn:Hi; [|reflexivity].
  destruct (l !! j) as [y|] eqn:Hj; [|reflexivity].
  by apply Permutation_insert_swap.
Qed.

Lemma fisherYates_Permutation {A} rnd i (l : list A) :
  fisherYates rnd i l ≡ₚ l.
Proof.
  revert rnd l. induction i as [|i IH]; intros rnd l; [reflexivity|].
  simpl. destruct rnd as [|r rnd]; [reflexivity|].
  rewrite IH. apply swap_Permutation.
Qed.

Lemma shuffleArray_Permutation {A} rnd (l : list A) : shuffleArray rnd l ≡ₚ l.
Proof. apply fisherYates_Permutation. Qed.

(** C7.  Shuffling a session with a current track leaves that track
    current, at the head of the playing order, and permutes the entries
    after it among themselves. *)
Theorem shuffle_keeps_current rnd s c :
  currentTrack s = Some c →
  let s' := session_shuffle rnd s in
  currentTrack s' = Some c ∧
  playlist s !! 0 = Some c ∧ playlist s' !! 0 = Some c ∧
  queue s' ≡ₚ queue s ∧
  tail (playlist s') ≡ₚ tail (playlist s).
Proof.
  intros Hc s'. unfold s', session_shuffle, playlist. simpl. rewrite Hc. simpl.
  repeat split; try done; apply shuffleArray_Permutation.
Qed.

Lemma shuffle_keeps_current_witness :
  let A := mkTrack "a" YOUTUBE_VOD in
  let B := mkTrack "b" YOUTUBE_VOD in
  let C := mkTrack "c" YOUTUBE_VOD in
  let s := mkSession "guild" (mkChannel "voice" true) [B; C] (Some A) false false in
  playlist (session_shuffle [0] s) = [A; C; B] ∧
  currentTrack (session_shuffle [0] s) = Some A ∧
  queue (session_shuffle [0] s) ≡ₚ [B; C].
Proof.
  intros A B C s. split; [reflexivity|].
  destruct (shuffle_keeps_current [0] s A eq_refl) as (H1 & _ & _ & H2 & _).
  split; [exact H1|exact H2].
Defined.

(** ** Resolution batches *)

Lemma playlist_enqueue_tail tracks s :
  playlist (session_enqueue tracks false s).2 = playlist s ++ tracks.
Proof.
  unfold session_enqueue, playlist, advance, set_queue, append.
  destruct (currentTrack s) as [c|] eqn:Hc; simpl.
  - by rewrite ?Hc.
  - destruct (queue s ++ tracks) eqn:Hq; simpl; by rewrite ?Hc.
Qed.

Lemma enqueue_cons_message E s t tracks front :
  ∃ m, (enqueue E s (t :: tracks) front).2 = inr m.
Proof.
  unfold enqueue. destruct (getVideoDetails E t); [|by eexists].
  repeat case_match; by eexists.
Qed.

(** The background resolution appends the resolved tracks in the order of
    the queries, counts them, and asks for a report after each. *)
Lemma resolveRest_from E completed rest b0 :
  let b := getTracksFromQueries_cb E completed rest onNewTracks b0 in
  let done := completed rest in
  playlist (target b) = playlist (target b0) ++ getTracksFromQueries E done ∧
  numFetched b = numFetched b0 + length (getTracksFromQueries E done) ∧
  updateRequests b =
    updateRequests b0 ++
    seq (S (numFetched b0)) (length (getTracksFromQueries E done)).
Proof.
  simpl. revert b0. unfold getTracksFromQueries_cb, getTracksFromQueries.
  generalize (completed rest). clear rest. intros rest.
  induction rest as [|q rest IH]; intros b0; simpl.
  { by rewrite !app_nil_r, Nat.add_0_r. }
  destruct (resolveQuery E q) as [t|]; [|apply IH].
  destruct (IH (onNewTracks [t] b0)) as (E1 & E2 & E3).
  rewrite E1, E2, E3. unfold onNewTracks.
  cbn [target numFetched updateRequests length].
  rewrite playlist_enqueue_tail, <-!app_assoc, Nat.add_1_r.
  split; [done|]. split; [|done]. simpl. by rewrite Nat.add_succ_r.
Qed.

Lemma length_omap_filter {A B} (f : A → option B) (l : list A) :
  length (omap f l) + length (filter (λ x, f x = None) l) = length l.
Proof.
  induction l as [|x l IH]; [done|].
  rewrite filter_cons. cbn [omap list_omap].
  destruct (decide (f x = None)) as [Hx|Hx].
  - rewrite Hx. cbn [length]. fold (omap f l). lia.
  - destruct (f x); [|done]. cbn [length]. fold (omap f l). lia.
Qed.

Lemma length_omap_all {A B} (f : A → option B) (l : list A) :
  Forall (λ x, is_Some (f x)) l → length (omap f l) = length l.
Proof.
  induction 1 as [|x l [y Hy] _ IH]; [done|].
  cbn [omap list_omap]. rewrite Hy. cbn [length]. fold (omap f l). by rewrite IH.
Qed.

(** C1, as stated, fails in four ways.  Queries "a", "b", "c", of which
    all resolve unless said otherwise.
    - On a session that is not shuffled, when the lookup of "c" completes
      before that of "b", the tracks are enqueued in the order a, c, b: the
      callback of lines 101-105 enqueues what it is given when it is called.
    - On a shuffled session line 69 shuffles the queries before they are
      resolved: with the draw that swaps "a" and "b" the order is b, a.
    - When the first query does not resolve, [enqueueQueries] throws and
      nothing is enqueued, though one of the two queries resolves.
    - When "b" does not resolve, the only report requested is at count 1,
      and the report at that count is still 'Queued 1 tracks. Fetching the
      other 1 tracks from YouTube...', not the closing one. *)
Lemma batch_order_and_completion_fail :
  let idle := newSession "guild" (mkChannel "voice" true) in
  let track q := mkTrack q YOUTUBE_VOD in
  let without (x : string) :=
    mkEnv (λ t, Some (mkVideoDetails (link t) 60)) (λ _ _, EmptyString)
          (λ q, if String.eqb q x then None else Some (track q))
          (λ _, false) (λ _, false) (λ _, false) (λ _, false)
          (λ _, None) (λ _, None) (λ _, None) (λ _, None) (λ _, None) in
  ((λ b, playlist (target b))
     <$> enqueueQueries_settled exampleEnv [] reverse idle ["a"; "b"; "c"]
     = Some [track "a"; track "c"; track "b"] ∧
   getTracksFromQueries exampleEnv ["a"; "b"; "c"]
     = [track "a"; track "b"; track "c"]) ∧
  ((λ b, playlist (target b))
     <$> enqueueQueries_settled exampleEnv [0] id
           (mkSession "guild" (mkChannel "voice" true) [] None true false)
           ["a"; "b"]
     = Some [track "b"; track "a"]) ∧
  (enqueueQueries_settled (without "a") [] id idle ["a"; "b"] = None ∧
   getTracksFromQueries (without "a") ["a"; "b"] = [track "b"]) ∧
  ((λ b, (updateRequests b,
          description (messageUpdate (mkEmbed None None None) ["b"; "c"]
                                     (numFetched b))))
     <$> enqueueQueries_settled (without "b") [] id idle ["a"; "b"; "c"]
     = Some ([1], Some ("Queued 1 tracks." +:+ nl
                        +:+ "Fetching the other 1 tracks from YouTube..."))).
Proof. repeat split; by vm_compute. Qed.

(** C1, amended.  Let [q :: rest] be the queries as [enqueueQueries]
    processes them: the given list, shuffled first when the session is
    shuffled; and let the lookups of [rest] complete in the order
    [completed rest].  If [q] resolves, then once the background resolution
    is over the session holds, after what it held before, the track of [q]
    and then the tracks of the queries of [rest] that resolved, in the order
    in which their lookups completed: exactly the resolved tracks of the
    batch, as many as there are queries less those that fail, and in the
    order of the queries when the session is not shuffled and the lookups
    complete in order.  [numFetched] has gone through 1, 2, ... up to the
    number of resolved queries of [rest], with a report requested at each
    count; and when every query of [rest] resolved, the report rendered at
    the last count is the closing one. *)
Theorem resolved_tracks_enqueued E rnd completed s queries q rest t :
  (if shuffled s then shuffleArray rnd queries else queries) = q :: rest →
  completed rest ≡ₚ rest →
  resolveQuery E q = Some t →
  ∃ r b,
    enqueueQueries E rnd s queries = (eq_session r, inr r) ∧
    eq_rest r = rest ∧
    enqueueQueries_settled E rnd completed s queries = Some b ∧
    playlist (target b)
      = playlist s ++ t :: getTracksFromQueries E (completed rest) ∧
    t :: getTracksFromQueries E (completed rest)
      ≡ₚ getTracksFromQueries E queries ∧
    (shuffled s = false → completed rest = rest →
       t :: getTracksFromQueries E (completed rest)
         = getTracksFromQueries E queries) ∧
    length (t :: getTracksFromQueries E (completed rest))
      + length (filter (λ q, resolveQuery E q = None) queries)
      = length queries ∧
    numFetched b = length (getTracksFromQueries E (completed rest)) ∧
    updateRequests b = seq 1 (numFetched b) ∧
    (rest ≠ [] → Forall (λ q, is_Some (resolveQuery E q)) rest →
       messageUpdate (eq_first r) rest (numFetched b) =
         concatDescription (eq_first r)
           ("Queued " +:+ pretty (length rest) +:+ " tracks from YouTube.")).
Proof.
  intros Hqs Hdone Hq.
  assert (getTracksFromQueries E (q :: rest) = t :: getTracksFromQueries E rest)
    as Hcons.
  { unfold getTracksFromQueries. cbn [omap list_omap]. by rewrite Hq. }
  assert (t :: getTracksFromQueries E (completed rest)
            ≡ₚ getTracksFromQueries E queries) as Hperm.
  { transitivity (getTracksFromQueries E (q :: rest)).
    - rewrite Hcons. constructor. unfold getTracksFromQueries. by rewrite Hdone.
    - unfold getTracksFromQueries. rewrite <-Hqs.
      destruct (shuffled s); [|done]. by rewrite shuffleArray_Permutation. }
  destruct (enqueue_cons_message E s t [] false) as [m Hm].
  pose proof (enqueue_session E s [t] false) as Hs.
  destruct (enqueue E s [t] false) as [s1 r1] eqn:He.
  cbn [fst snd] in Hm, Hs. subst r1.
  set (r := mkEnqueued s1 m
              (concatDescription m (fetchingTheOther (length rest))) rest).
  assert (enqueueQueries E rnd s queries = (s1, inr r)) as Heq.
  { unfold enqueueQueries, isShuffled. rewrite Hqs.
    unfold getTracksFromQueries. cbn [omap list_omap]. rewrite Hq.
    cbn [omap list_omap]. by rewrite He. }
  destruct (resolveRest_from E completed rest (mkBatch s1 0 []))
    as (E1 & E2 & E3).
  cbn [target numFetched updateRequests] in E1, E2, E3.
  exists r, (resolveRest E completed rest s1).
  split; [done|]. split; [done|].
  split. { unfold enqueueQueries_settled. by rewrite Heq. }
  split.
  { unfold resolveRest. rewrite E1, Hs, playlist_enqueue_tail.
    by rewrite <-app_assoc. }
  split; [done|].
  split. { intros Hn ->. rewrite <-Hcons, <-Hqs. by rewrite Hn. }
  split.
  { rewrite (Permutation_length Hperm). apply length_omap_filter. }
  unfold resolveRest. rewrite E2, E3.
  split; [done|]. split; [done|].
  intros Hne Hall.
  assert (length (getTracksFromQueries E (completed rest)) = length rest)
    as Hlen.
  { unfold getTracksFromQueries. rewrite Hdone. by apply length_omap_all. }
  rewrite Hlen. simpl. unfold messageUpdate.
  rewrite bool_decide_eq_false_2 by (destruct rest; [done|simpl; lia]).
  by rewrite bool_decide_eq_false_2 by lia.
Qed.

Lemma resolved_tracks_enqueued_witness :
  let E :=
    mkEnv (λ t, Some (mkVideoDetails (link t) 60)) (λ _ _, "0:00 / 1:00")
          (λ q, if String.eqb q "b" then None else Some (mkTrack q YOUTUBE_VOD))
          (λ _, false) (λ _, false) (λ _, false) (λ _, false)
          (λ _, None) (λ _, None) (λ _, None) (λ _, None) (λ _, None) in
  let s := newSession "guild" (mkChannel "voice" true) in
  ∃ r b,
    enqueueQueries_settled E [] reverse s ["a"; "b"; "c"; "d"] = Some b ∧
    playlist (target b) = [mkTrack "a" YOUTUBE_VOD; mkTrack "d" YOUTUBE_VOD;
                           mkTrack "c" YOUTUBE_VOD] ∧
    numFetched b = 2 ∧ eq_rest r = ["b"; "c"; "d"].
Proof.
  intros E s.
  destruct (resolved_tracks_enqueued E [] reverse s ["a"; "b"; "c"; "d"]
              "a" ["b"; "c"; "d"] (mkTrack "a" YOUTUBE_VOD) eq_refl)
    as (r & b & _ & H1 & H2 & H3 & _ & _ & _ & H4 & _).
  { apply reverse_Permutation. }
  { reflexivity. }
  exists r, b. split; [exact H2|]. split; [exact H3|].
  split; [exact H4|exact H1].
Defined.

(** ** The registry *)

Lemma store_guilds s reg : guild <$> store s reg = guild <$> reg.
Proof.
  unfold store. rewrite <-list_fmap_compose. apply list_fmap_ext.
  intros i s0 _. simpl. by case_decide.
Qed.

Lemma sessions_get_None g reg :
  sessions_get g reg = None ↔ g ∉ guild <$> reg.
Proof.
  unfold sessions_get.
  destruct (list_find _ reg) as [[i s]|] eqn:Hf; simpl.
  - apply list_find_Some in Hf as (Hi & Hg & _). split; [done|].
    intros Hn. destruct Hn. apply list_elem_of_fmap. exists s.
    split; [done|]. by eapply list_elem_of_lookup_2.
  - apply list_find_None in Hf. split; [|done]. intros _.
    intros (s & -> & Hin)%list_elem_of_fmap.
    rewrite Forall_forall in Hf. by apply (Hf s).
Qed.

Lemma sessions_get_Some g reg s :
  sessions_get g reg = Some s → s ∈ reg ∧ guild s = g.
Proof.
  unfold sessions_get.
  destruct (list_find _ reg) as [[i s0]|] eqn:Hf; simpl; [|done].
  intros [= ->]. apply list_find_Some in Hf as (Hi & Hg & _).
  split; [by eapply list_elem_of_lookup_2|done].
Qed.

(** With one session per guild, what [store] writes is what [get] reads. *)
Lemma sessions_get_store s reg :
  guild s ∈ guild <$> reg →
  sessions_get (guild s) (store s reg) = Some s.
Proof.
  intros Hin. unfold sessions_get, store.
  induction reg as [|s0 reg IH]; [by apply not_elem_of_nil in Hin|].
  rewrite fmap_cons. destruct (decide (guild s0 = guild s)) as [Hg|Hg].
  - cbn [list_find]. by rewrite decide_True.
  - cbn [list_find]. rewrite decide_False by done.
    rewrite fmap_cons in Hin.
    apply elem_of_cons in Hin as [Hin|Hin]; [by destruct Hg|].
    specialize (IH Hin).
    destruct (list_find _ _) as [[i s1]|]; simpl in *; by simplify_eq.
Qed.

(** [play] either leaves the guilds of the registry as they are, or has
    found no session for its guild and adds that guild at the end. *)
Lemma play_guilds E rndS rndQ i inputs reg :
  let r := play E rndS rndQ i inputs reg in
  (created r = false ∧ guild <$> registry r = guild <$> reg) ∨
  (created r = true ∧ sessions_get (i_guild i) reg = None ∧
   guild <$> registry r = (guild <$> reg) ++ [i_guild i]).
Proof.
  unfold play, replyOnly.
  destruct (i_user i) as [user|]; [|by left].
  destruct (i_voice i) as [ch|]; [|by left].
  destruct (joinable ch); simpl; [|by left].
  destruct (sessions_get (i_guild i) reg) as [s|] eqn:Hget; simpl.
  - rewrite andb_false_r. left.
    destruct (playInto _ _ _ _) as [[[s' rs] e] bg]. simpl.
    by rewrite !store_guilds.
  - rewrite andb_true_r. case_bool_decide; simpl; [by left|].
    unfold sessions_create. rewrite Hget.
    destruct (playInto _ _ _ _) as [[[s' rs] e] bg]. simpl. right.
    rewrite store_guilds, fmap_app. done.
Qed.

Lemma exec_guilds E reg c :
  NoDup (guild <$> reg) → NoDup (guild <$> exec E reg c).
Proof.
  intros Hnd. destruct c as [rndS rndQ completed i inputs|g]; simpl.
  - assert (NoDup (guild <$> registry (play E rndS rndQ i inputs reg))) as H.
    { destruct (play_guilds E rndS rndQ i inputs reg) as [[_ ->]|(_ & Hn & ->)];
        [done|].
      apply NoDup_app. split; [done|]. split; [|apply NoDup_singleton].
      intros g Hin ->%list_elem_of_singleton.
      by apply sessions_get_None in Hn. }
    destruct (background _); [|done].
    destruct (sessions_get _ _); [|done]. by rewrite store_guilds.
  - induction reg as [|s reg IH]; [done|].
    rewrite filter_cons. simpl in Hnd. apply NoDup_cons in Hnd as [Hs Hnd].
    case_decide; [|by apply IH]. simpl. apply NoDup_cons. split; [|by apply IH].
    intros (s' & Hg & Hin%list_elem_of_filter)%list_elem_of_fmap.
    apply Hs. apply list_elem_of_fmap. exists s'. tauto.
Qed.

Lemma NoDup_guilds_count g reg :
  NoDup (guild <$> reg) → length (filter (λ s, guild s = g) reg) ≤ 1.
Proof.
  induction reg as [|s reg IH]; simpl; [lia|].
  intros [Hs Hnd]%NoDup_cons. rewrite filter_cons.
  case_decide as Hg; [|by apply IH]. simpl.
  assert (filter (λ s, guild s = g) reg = []) as ->; [|simpl; lia].
  destruct (filter _ reg) as [|s' l] eqn:Hf; [done|]. destruct Hs.
  assert (s' ∈ filter (λ s, guild s = g) reg) as [Hg' Hin]%list_elem_of_filter
    by (rewrite Hf; left).
  apply list_elem_of_fmap. exists s'. split; [congruence|done].
Qed.

(** C6.  Starting from the empty registry, after any sequence of [play]
    commands, background resolutions and teardowns, the registry holds at
    most one session for each guild; [create] for a guild that has a session
    fails and leaves the registry as it is; and [play] calls [create] only
    when [get] found no session for the guild. *)
Theorem one_session_per_guild E cmds g :
  length (filter (λ s, guild s = g) (foldl (exec E) [] cmds)) ≤ 1 ∧
  (∀ reg ch, is_Some (sessions_get g reg) →
     sessions_create g ch reg = (inl duplicateSession, reg)) ∧
  (∀ rndS rndQ i inputs reg,
     created (play E rndS rndQ i inputs reg) = true →
     sessions_get (i_guild i) reg = None).
Proof.
  split; [|split].
  - apply NoDup_guilds_count.
    assert (∀ reg, NoDup (guild <$> reg) →
                   NoDup (guild <$> foldl (exec E) reg cmds)) as H.
    { induction cmds as [|c cmds IH]; intros reg Hnd; [done|].
      simpl. by apply IH, exec_guilds. }
    apply H. constructor.
  - intros reg ch [s Hs]. unfold sessions_create. by rewrite Hs.
  - intros rndS rndQ i inputs reg Hc.
    destruct (play_guilds E rndS rndQ i inputs reg) as [[Hf _]|(_ & Hn & _)];
      [congruence|done].
Qed.

(** ** [play] without arguments *)

Lemma sessions_get_store_ne g s reg :
  g ≠ guild s → sessions_get g (store s reg) = sessions_get g reg.
Proof.
  intros Hne. unfold sessions_get, store.
  induction reg as [|s0 reg IH]; [done|].
  rewrite fmap_cons. cbn [list_find].
  destruct (decide (guild s0 = guild s)) as [Hg|Hg].
  - rewrite !decide_False by congruence.
    destruct (list_find _ (_ <$> reg)) as [[]|],
             (list_find _ reg) as [[]|]; simpl in *; by simplify_eq.
  - destruct (decide (guild s0 = g)); [done|].
    destruct (list_find _ (_ <$> reg)) as [[]|],
             (list_find _ reg) as [[]|]; simpl in *; by simplify_eq.
Qed.

(** C10, as stated, fails when the invoking user is not in a voice channel:
    lines 140-142 reply and return before the session is looked up.  A paused
    session exists for the guild, [play] is invoked with no argument, and
    the session stays paused. *)
Lemma play_outside_voice_channel_not_resumed :
  let s := mkSession "guild" (mkChannel "voice" true) []
                     (Some (mkTrack "a" YOUTUBE_VOD)) false true in
  let i := mkInteraction "guild" (Some "user") None in
  let r := play exampleEnv [] [] i (mkInputs None None None false false) [s] in
  sessions_get "guild" [s] = Some s ∧
  replies r = [EditReply "You must be connected to a voice channel."] ∧
  replies r ≠ [EditReply "Resumed."; AttachPlayerButtons] ∧
  sessions_get "guild" (registry r) = Some s ∧
  paused s = true.
Proof. repeat split; try reflexivity. by vm_compute. Qed.

(** C10, amended.  [play] invoked with no link, no stream link and no query
    by a resolved user who is connected to a voice channel the bot can join:
    if the guild has a session, the session is resumed, the reply is
    'Resumed.' followed by the player buttons, nothing is enqueued, the
    current track is the same and the queue holds the same tracks, in the
    same order unless the shuffle option was given; if the guild has no
    session, the reply is that an argument is required and the registry is
    as before.  The sessions of other guilds are untouched. *)
Theorem play_without_arguments E rndS rndQ i inputs reg user ch :
  i_user i = Some user → i_voice i = Some ch → joinable ch = true →
  truthy (vodLink inputs) = false →
  truthy (streamLink inputs) = false →
  truthy (queryStr inputs) = false →
  let r := play E rndS rndQ i inputs reg in
  thrown r = None ∧ created r = false ∧ background r = None ∧
  guild <$> registry r = guild <$> reg ∧
  (∀ g, g ≠ i_guild i → sessions_get g (registry r) = sessions_get g reg) ∧
  match sessions_get (i_guild i) reg with
  | Some s =>
      replies r = [EditReply "Resumed."; AttachPlayerButtons] ∧
      ∃ s', sessions_get (i_guild i) (registry r) = Some s' ∧
            paused s' = false ∧
            currentTrack s' = currentTrack s ∧
            queue s' ≡ₚ queue s ∧
            (shuffle inputs = false →
               queue s' = queue s ∧ shuffled s' = shuffled s)
  | None =>
      replies r = [EditReply "You must provide at least one argument."] ∧
      registry r = reg
  end.
Proof.
  intros Hu Hv Hj H1 H2 H3 r. unfold r, play, replyOnly.
  rewrite Hu, Hv, Hj. cbn [negb].
  rewrite !filter_cons, filter_nil, H1, H2, H3.
  cbn [decide Is_true_dec length].
  rewrite (bool_decide_eq_true_2 (0 = 0)) by done. cbn [andb].
  destruct (sessions_get (i_guild i) reg) as [s|] eqn:Hget; cbn [fmap option_fmap option_map].
  2:{ rewrite bool_decide_eq_true_2 by done. by cbn. }
  rewrite bool_decide_eq_false_2 by done.
  unfold playInto. rewrite H1, H2, H3.
  cbn [registry replies thrown created background].
  apply sessions_get_Some in Hget as [Hin Hg].
  set (s' := if shuffle inputs then session_shuffle rndS (session_resume s)
             else session_resume s).
  assert (guild s' = i_guild i) as Hg'.
  { unfold s'. by destruct (shuffle inputs). }
  split; [done|]. split; [done|]. split; [done|].
  split; [by rewrite !store_guilds|]. split.
  { intros g Hne. rewrite sessions_get_store_ne by by rewrite Hg'.
    apply sessions_get_store_ne. simpl. by rewrite Hg. }
  split; [done|]. exists s'. split.
  { rewrite <-Hg'. apply sessions_get_store. rewrite store_guilds, Hg', <-Hg.
    by apply list_elem_of_fmap_2. }
  unfold s'. destruct (shuffle inputs); simpl.
  - split; [done|]. split; [done|].
    split; [apply shuffleArray_Permutation|done].
  - done.
Qed.

Lemma play_without_arguments_witness :
  let s := mkSession "guild" (mkChannel "voice" true) [mkTrack "b" YOUTUBE_VOD]
                     (Some (mkTrack "a" YOUTUBE_VOD)) false true in
  let i := mkInteraction "guild" (Some "user") (Some (mkChannel "voice" true)) in
  let r := play exampleEnv [] [] i (mkInputs None (Some EmptyString) None false false) [s] in
  replies r = [EditReply "Resumed."; AttachPlayerButtons] ∧
  ∃ s', sessions_get "guild" (registry r) = Some s' ∧
        paused s' = false ∧ currentTrack s' = currentTrack s ∧
        queue s' ≡ₚ queue s.
Proof.
  intros s i r.
  destruct (play_without_arguments exampleEnv [] [] i
              (mkInputs None (Some EmptyString) None false false) [s]
              "user" (mkChannel "voice" true)
              eq_refl eq_refl eq_refl eq_refl eq_refl eq_refl)
    as (_ & _ & _ & _ & _ & H).
  destruct H as (H1 & s' & H2 & H3 & H4 & H5 & _).
  split; [exact H1|]. exists s'. repeat split; assumption.
Defined.

End PlayerFacts.

Module AuthMore.
Import Auth AuthFacts.

(** ** Invariants over executions *)

Lemma run_snoc st evs ev : run st (evs ++ [ev]) = step (run st evs) ev.
Proof. unfold run. by rewrite foldl_app. Qed.

(** Induction over the reachable states. *)
Lemma reachable_ind (P : State → Prop) bot :
  P (init bot) →
  (∀ st ev, Inv st → P st → P (step st ev)) →
  ∀ evs, P (run (init bot) evs).
Proof.
  intros H0 Hstep evs. induction evs as [|ev evs IH] using rev_ind; [done|].
  rewrite run_snoc. apply Hstep; [apply Inv_run, Inv_init|done].
Qed.

Lemma wake_frame st :
  requests (wake st) = requests st ∧ next (wake st) = next st ∧
  userRes (wake st) = userRes st ∧ guildsRes (wake st) = guildsRes st ∧
  guildCache (wake st) = guildCache st.
Proof.
  unfold wake; simpl.
  destruct (foldl_resume_frame (waiters st) st) as (?&?&?&?&?&_). done.
Qed.

Lemma wake_entry_mono st a k :
  discordPromises (wake st) !! a = Some k → discordPromises st !! a = Some k.
Proof. unfold wake; simpl. apply foldl_resume_entry_mono. Qed.

(** What a call does to the request log and to the map: nothing, or the two
    requests of a new array stored under its token. *)
Lemma call_requests auth st :
  (requests (call auth st) = requests st ∧ next (call auth st) = next st ∧
   ∀ a k, discordPromises (call auth st) !! a = Some k →
          discordPromises st !! a = Some k) ∨
  (cache st !! auth = None ∧ discordPromises st !! auth = None ∧
   requests (call auth st) =
     requests st ++ [mkRequest users_me auth; mkRequest users_me_guilds auth] ∧
   next (call auth st) = S (next st) ∧
   ∀ a k, discordPromises (call auth st) !! a = Some k →
          (a = auth ∧ k = next st) ∨ discordPromises st !! a = Some k).
Proof.
  unfold call, getUserFromAuthToken, begin.
  destruct (cache st !! auth) as [u|] eqn:Hc; [by left|].
  destruct (inherited auth); [by left|].
  destruct (discordPromises st !! auth) as [k|] eqn:He.
  - left. pose proof (continue_cases auth k st) as H.
    destruct (promise_all st k); rewrite H; simpl; repeat split; try done.
    intros a k' [_ ?]%lookup_delete_Some. done.
  - right. split; [done|]. split; [done|].
    match goal with |- context [continue auth ?k ?s] =>
      pose proof (continue_cases auth k s) as H;
      destruct (promise_all s k); rewrite H
    end; simpl; repeat split; try done.
    + intros a k' Hl. destruct (decide (a = auth)) as [->|].
      * rewrite lookup_insert_eq in Hl. left. by simplify_eq.
      * rewrite lookup_insert_ne in Hl by done. by right.
    + intros a k' [Hne Hl]%lookup_delete_Some.
      rewrite lookup_insert_ne in Hl by done. by right.
    + intros a k' Hl. destruct (decide (a = auth)) as [->|].
      * rewrite lookup_insert_eq in Hl. left. by simplify_eq.
      * rewrite lookup_insert_ne in Hl by done. by right.
Qed.

(** X1.  Upstream requests are made in pairs.  In every reachable state
    the request log consists of one [/users/@me] request followed by one
    [/users/@me/guilds] request with the same authorization for each array
    created, and the array stored for a token is the pair made with that
    token. *)
Theorem requests_come_in_pairs bot evs :
  let st := run (init bot) evs in
  length (requests st) = 2 * next st ∧
  (∀ k, k < next st →
     ∃ a, requests st !! (2 * k) = Some (mkRequest users_me a) ∧
          requests st !! (2 * k + 1) = Some (mkRequest users_me_guilds a)) ∧
  (∀ a k, discordPromises st !! a = Some k →
     requests st !! (2 * k) = Some (mkRequest users_me a) ∧
     requests st !! (2 * k + 1) = Some (mkRequest users_me_guilds a)).
Proof.
  simpl. apply (reachable_ind (λ st,
    length (requests st) = 2 * next st ∧
    (∀ k, k < next st →
       ∃ a, requests st !! (2 * k) = Some (mkRequest users_me a) ∧
            requests st !! (2 * k + 1) = Some (mkRequest users_me_guilds a)) ∧
    (∀ a k, discordPromises st !! a = Some k →
       requests st !! (2 * k) = Some (mkRequest users_me a) ∧
       requests st !! (2 * k + 1) = Some (mkRequest users_me_guilds a)))).
  { split; [done|]. split; [intros k Hk; simpl in Hk; lia|done]. }
  intros st ev HI (Hlen & Hall & Hent).
  assert (∀ st1, requests st1 = requests st → next st1 = next st →
            discordPromises st1 = discordPromises st →
            length (requests (wake st1)) = 2 * next (wake st1) ∧
            (∀ k, k < next (wake st1) →
               ∃ a, requests (wake st1) !! (2 * k) = Some (mkRequest users_me a) ∧
                    requests (wake st1) !! (2 * k + 1)
                      = Some (mkRequest users_me_guilds a)) ∧
            (∀ a k, discordPromises (wake st1) !! a = Some k →
               requests (wake st1) !! (2 * k) = Some (mkRequest users_me a) ∧
               requests (wake st1) !! (2 * k + 1)
                 = Some (mkRequest users_me_guilds a))) as Hwake.
  { intros st1 Hr Hn Hd. destruct (wake_frame st1) as (-> & -> & _).
    rewrite Hr, Hn. split; [done|]. split; [done|].
    intros a k Hk%wake_entry_mono. rewrite Hd in Hk. by apply Hent. }
  destruct ev as [auth|k o|k o|auth|auth|g|g]; simpl; try done.
  - destruct (call_requests auth st) as [(-> & -> & Hm)|(_ & _ & -> & -> & Hm)].
    { split; [done|]. split; [done|]. intros a k Hk%Hm. by apply Hent. }
    assert ((requests st ++ [mkRequest users_me auth;
                             mkRequest users_me_guilds auth]) !! (2 * next st)
              = Some (mkRequest users_me auth) ∧
            (requests st ++ [mkRequest users_me auth;
                             mkRequest users_me_guilds auth]) !! (2 * next st + 1)
              = Some (mkRequest users_me_guilds auth)) as Hnew.
    { rewrite !lookup_app_r by lia. rewrite Hlen.
      replace (2 * next st - 2 * next st) with 0 by lia.
      by replace (2 * next st + 1 - 2 * next st) with 1 by lia. }
    assert (∀ k a, k < next st →
              requests st !! (2 * k) = Some (mkRequest users_me a) ∧
              requests st !! (2 * k + 1) = Some (mkRequest users_me_guilds a) →
              (requests st ++ [mkRequest users_me auth;
                               mkRequest users_me_guilds auth]) !! (2 * k)
                = Some (mkRequest users_me a) ∧
              (requests st ++ [mkRequest users_me auth;
                               mkRequest users_me_guilds auth]) !! (2 * k + 1)
                = Some (mkRequest users_me_guilds a)) as Hold.
    { intros k a Hk [H1 H2]. by rewrite !lookup_app_l by lia. }
    split; [rewrite length_app; simpl; lia|]. split.
    + intros k Hk. destruct (decide (k = next st)) as [->|Hne].
      * by exists auth.
      * destruct (Hall k) as (a & Ha); [lia|]. exists a. apply Hold; [lia|done].
    + intros a k [[-> ->]|Hk]%Hm; [done|].
      apply Hold; [by apply (entry_lt st HI a)|by apply Hent].
  - case_decide; [|done]. by apply Hwake.
  - case_decide; [|done]. by apply Hwake.
Qed.

(** ** The cache *)

Lemma cached_no_waiter st auth u w :
  Inv st → cache st !! auth = Some u → w ∈ waiters st → w.1 ≠ auth.
Proof.
  intros HI Hc Hin Hw. destruct w as [a k]; simpl in *; subst a.
  pose proof (waiter_entry st HI _ _ Hin) as He.
  pose proof (entry_miss st HI _ _ He). congruence.
Qed.

Lemma cached_step st auth u ev :
  Inv st → cache st !! auth = Some u → evicts auth ev = false →
  cache (step st ev) !! auth = Some u.
Proof.
  intros HI Hc Hev.
  assert (∀ st1, waiters st1 = waiters st → cache st1 = cache st →
                 cache (wake st1) !! auth = Some u) as Hwake.
  { intros st1 Hw Hc1. unfold wake; simpl.
    destruct (foldl_resume_entry (waiters st1) st1 auth) as [_ ->];
      [|by rewrite Hc1].
    intros w Hin Ha. rewrite Hw in Hin.
    by destruct (cached_no_waiter st auth u w). }
  destruct ev as [a|k o|k o|a|a|g|g]; simpl in *; try done.
  - destruct (decide (a = auth)) as [->|Hne].
    + unfold call, getUserFromAuthToken, begin. by rewrite Hc.
    + destruct (call_frame a st) as (_ & _ & Hother).
      destruct (Hother auth) as [_ ->]; done.
  - case_decide; [|done]. by apply Hwake.
  - case_decide; [|done]. by apply Hwake.
  - apply bool_decide_eq_false in Hev. by rewrite lookup_delete_ne.
  - apply bool_decide_eq_false in Hev. by rewrite lookup_delete_ne.
Qed.

(** X2.  A cached user stays.  Once the cache holds a user for a token, it
    holds that user until [clearCache] is called for the token or the entry
    expires, whatever else happens; any call for the token in the meantime
    returns that user at once and makes no request. *)
Theorem cached_user_stable bot evs auth u evs' :
  let st := run (init bot) evs in
  cache st !! auth = Some u →
  Forall (λ ev, evicts auth ev = false) evs' →
  let st' := run st evs' in
  cache st' !! auth = Some u ∧
  getUserFromAuthToken auth st' = (Some (Returned u), st') ∧
  authMiddleware (Some auth) st' =
    (Some (if String.eqb auth EmptyString then Status401 else Next u), st') ∧
  requests (call auth st') = requests st'.
Proof.
  intros st Hc Hall st'.
  assert (Inv st) as HI by apply Inv_run, Inv_init.
  assert (cache st' !! auth = Some u) as Hc'.
  { unfold st'. clear st'. revert Hc HI. generalize st. clear st.
    induction Hall as [|ev evs' Hev _ IH]; intros st Hc HI; [done|].
    simpl. apply IH; [by apply cached_step|by apply Inv_step]. }
  assert (getUserFromAuthToken auth st' = (Some (Returned u), st')) as Hcall.
  { unfold getUserFromAuthToken, begin. by rewrite Hc'. }
  split; [done|]. split; [done|]. split.
  - unfold authMiddleware. destruct (String.eqb auth EmptyString); [done|].
    by rewrite Hcall.
  - unfold call. by rewrite Hcall.
Qed.

Lemma cached_user_stable_witness :
  let st := run (init {["g1"]}) lookup_trace in
  let u := mkUser "1" "u" "0001" "a" [mkGuild "g1" "Guild" "icon"] in
  let st' := run st [Call "other"; ClearCache "other"; Call "token"] in
  cache st !! "token" = Some u ∧ cache st' !! "token" = Some u ∧
  authMiddleware (Some "token") st' = (Some (Next u), st').
Proof.
  intros st u st'.
  assert (cache st !! "token" = Some u) as Hc by (by vm_compute).
  split; [exact Hc|].
  destruct (cached_user_stable {["g1"]} lookup_trace "token" u
              [Call "other"; ClearCache "other"; Call "token"] Hc)
    as (H1 & _ & H3 & _).
  { repeat constructor. }
  split; [exact H1|exact H3].
Defined.

(** X3.  [clearCache] forces a new lookup.  In every reachable state in
    which a user is cached for a token, clearing the token's cache entry
    makes the next call for the token issue the two requests again, store
    the new array under the token and suspend on it. *)
Theorem clearCache_forces_refetch bot evs auth u :
  let st := run (init bot) evs in
  cache st !! auth = Some u →
  let st' := call auth (clearCache auth st) in
  requests st' =
    requests st ++ [mkRequest users_me auth; mkRequest users_me_guilds auth] ∧
  discordPromises st' !! auth = Some (next st) ∧
  waiters st' = waiters st ++ [(auth, next st)] ∧
  returned st' = returned st.
Proof.
  intros st Hc st'.
  assert (Inv st) as HI by apply Inv_run, Inv_init.
  assert (Own st) as [_ HO] by (apply Own_run; [apply Inv_init|apply Own_init]).
  assert (discordPromises st !! auth = None) as He.
  { destruct (discordPromises st !! auth) as [k|] eqn:He; [|done].
    pose proof (entry_miss st HI _ _ He). congruence. }
  unfold st', call, getUserFromAuthToken, begin, clearCache. simpl.
  rewrite lookup_delete_eq, (HO _ _ Hc), He. unfold continue, promise_all. simpl.
  rewrite (fresh_user st HI (next st)), (fresh_guilds st HI (next st)) by lia.
  simpl. by rewrite lookup_insert_eq.
Qed.

Lemma clearCache_forces_refetch_witness :
  let st := run (init {["g1"]}) lookup_trace in
  let st' := call "token" (clearCache "token" st) in
  requests st' =
    requests st ++ [mkRequest users_me "token";
                    mkRequest users_me_guilds "token"] ∧
  discordPromises st' !! "token" = Some 1.
Proof.
  intros st st'.
  assert (cache st !! "token"
            = Some (mkUser "1" "u" "0001" "a" [mkGuild "g1" "Guild" "icon"]))
    as Hc by (by vm_compute).
  destruct (clearCache_forces_refetch {["g1"]} lookup_trace "token" _ Hc)
    as (H1 & H2 & _).
  split; [exact H1|exact H2].
Defined.

(** ** Settlement *)

Lemma outcome_of_ext st st' w :
  userRes st' = userRes st → guildsRes st' = guildsRes st →
  guildCache st' = guildCache st →
  outcome_of st' w = outcome_of st w.
Proof.
  intros Hu Hg Hb. unfold outcome_of.
  by rewrite (promise_all_ext st st') , Hb by done.
Qed.

Lemma resume_returned st w :
  returned (resume st w) = returned st ++ option_list (outcome_of st w).
Proof.
  pose proof (resume_cases st w) as H. unfold outcome_of.
  destruct (promise_all st w.2); rewrite H; simpl; [by rewrite app_nil_r|done..].
Qed.

Lemma foldl_resume_returned_exact ws st :
  returned (foldl resume st ws) = returned st ++ omap (outcome_of st) ws.
Proof.
  revert st. induction ws as [|w ws IH]; intros st; simpl.
  { by rewrite app_nil_r. }
  rewrite IH, resume_returned.
  destruct (resume_frame st w) as (_&_&Hu&Hg&Hb&_).
  rewrite (list_omap_ext (outcome_of (resume st w)) (outcome_of st) ws ws).
  2:{ apply Forall2_same_length_lookup. split; [done|].
      intros i x y Hx Hy. simplify_eq. by apply outcome_of_ext. }
  rewrite <-app_assoc. f_equal. by destruct (outcome_of st w).
Qed.

(** X4.  Calls suspended on the same promises finish together.  In every
    reachable state, when a promise settles, the calls that return or throw
    are exactly the suspended calls whose [Promise.all] has settled, in the
    order in which they were made; the outcome of each depends only on the
    array it awaits, so all callers that shared a lookup get the same user
    or all throw; the calls still waiting stay suspended, in order. *)
Theorem settlement_resumes_in_order bot evs ev :
  let st := run (init bot) evs in
  (∃ k o, ev = SettleUser k o) ∨ (∃ k o, ev = SettleGuilds k o) →
  let st' := step st ev in
  returned st' = returned st ++ omap (outcome_of st') (waiters st) ∧
  waiters st' = filter (is_pending st') (waiters st) ∧
  (∀ a1 a2 k, (a1, k) ∈ waiters st → (a2, k) ∈ waiters st →
     snd <$> outcome_of st' (a1, k) = snd <$> outcome_of st' (a2, k)).
Proof.
  intros st Hev st'.
  assert (Inv st) as HI by apply Inv_run, Inv_init.
  assert (∀ a1 a2 k,
            snd <$> outcome_of st' (a1, k) = snd <$> outcome_of st' (a2, k))
    as Hsame.
  { intros a1 a2 k. unfold outcome_of. simpl. by destruct (promise_all st' k). }
  split; [|split; [|by intros; apply Hsame]].
  - assert (∀ st1, waiters st1 = waiters st → returned st1 = returned st →
              returned (wake st1)
                = returned st ++ omap (outcome_of (wake st1)) (waiters st))
      as Hwake.
    { intros st1 Hw Hr. destruct (wake_frame st1) as (_&_&Hu&Hg&Hb).
      unfold wake at 1. simpl.
      rewrite foldl_resume_returned_exact, Hw, Hr. f_equal.
      apply list_omap_ext, Forall2_same_length_lookup. split; [done|].
      intros i x y Hx Hy. simplify_eq. symmetry. by apply outcome_of_ext. }
    assert (omap (outcome_of st) (waiters st) = @nil (string * Outcome)) as Hnone.
    { assert (∀ ws, (∀ w, w ∈ ws → w ∈ waiters st) →
                    omap (outcome_of st) ws = @nil (string * Outcome)) as H;
        [|by apply H].
      induction ws as [|[a k] ws IH]; intros Hsub; [done|]. simpl.
      unfold outcome_of at 1. simpl.
      rewrite (waiter_pending st HI a k) by (apply Hsub; left).
      apply IH. intros w Hw. apply Hsub. by right. }
    unfold st'. destruct Hev as [(k & o & ->)|(k & o & ->)]; simpl;
      (case_decide; [by apply Hwake|by rewrite Hnone, app_nil_r]).
  - assert (filter (is_pending st) (waiters st) = waiters st) as Hall.
    { assert (∀ ws : list (string * nat), (∀ w, w ∈ ws → w ∈ waiters st) →
                    filter (is_pending st) ws = ws) as H; [|by apply H].
      induction ws as [|[a k] ws IH]; intros Hsub; [done|].
      rewrite filter_cons, decide_True.
      - f_equal. apply IH. intros w Hw. apply Hsub. by right.
      - apply (waiter_pending st HI a k). apply Hsub. left. }
    assert (∀ st1, waiters st1 = waiters st →
              waiters (wake st1) = filter (is_pending (wake st1)) (waiters st))
      as Hwake.
    { intros st1 Hw. destruct (wake_frame st1) as (_&_&Hu&Hg&_).
      unfold wake at 1. simpl. rewrite Hw. apply list_filter_iff.
      intros w. unfold is_pending. by rewrite (promise_all_ext st1 (wake st1)). }
    unfold st'. destruct Hev as [(k & o & ->)|(k & o & ->)]; simpl;
      (case_decide; [by apply Hwake|by rewrite Hall]).
Qed.

Lemma settlement_resumes_in_order_witness :
  let u := mkRawUser "1" "u" "0001" "a" [] in
  let st := run (init ∅) [Call "token"; Call "other"; Call "token";
                          SettleUser 0 (Resolved u)] in
  let st' := step st (SettleGuilds 0 Rejected) in
  returned st' = [("token", Threw); ("token", Threw)] ∧
  waiters st' = [("other", 1)].
Proof.
  intros u st st'.
  destruct (settlement_resumes_in_order ∅
              [Call "token"; Call "other"; Call "token";
               SettleUser 0 (Resolved u)] (SettleGuilds 0 Rejected))
    as (H1 & H2 & _).
  { right. by exists 0, Rejected. }
  split; [exact H1|exact H2].
Defined.

(** ** Tokens do not interfere *)

Lemma promise_all_settleUser_ne st k k0 o :
  k ≠ k0 → promise_all (settleUser k0 o st) k = promise_all st k.
Proof. intros Hne. unfold promise_all; simpl. by rewrite lookup_insert_ne. Qed.

Lemma promise_all_settleGuilds_ne st k k0 o :
  k ≠ k0 → promise_all (settleGuilds k0 o st) k = promise_all st k.
Proof. intros Hne. unfold promise_all; simpl. by rewrite lookup_insert_ne. Qed.

(** X5.  In every reachable state, an event that is not about a token (a
    call or an eviction for another token, the settlement of a promise that
    no call for the token is suspended on, a change of the guild cache)
    leaves the token's cached user and stored promises as they are. *)
Theorem other_tokens_untouched bot evs auth ev :
  let st := run (init bot) evs in
  ¬ concerns auth st ev →
  cache (step st ev) !! auth = cache st !! auth ∧
  discordPromises (step st ev) !! auth = discordPromises st !! auth.
Proof.
  intros st Hn.
  assert (Inv st) as HI by apply Inv_run, Inv_init.
  assert (∀ st1 k, waiters st1 = waiters st → cache st1 = cache st →
            discordPromises st1 = discordPromises st →
            (∀ k', k' ≠ k → promise_all st1 k' = promise_all st k') →
            (auth, k) ∉ waiters st →
            cache (wake st1) !! auth = cache st !! auth ∧
            discordPromises (wake st1) !! auth = discordPromises st !! auth)
    as Hwake.
  { intros st1 k Hw Hc Hd Hp Hnot. unfold wake; simpl.
    destruct (foldl_resume_entry (waiters st1) st1 auth) as [-> ->];
      [|by rewrite Hc, Hd].
    intros [a k'] Hin Ha ud gd; simpl in *; subst a. rewrite Hw in Hin.
    rewrite Hp by (intros ->; done).
    by rewrite (waiter_pending st HI auth k'). }
  destruct ev as [a|k o|k o|a|a|g|g]; simpl in *; try done.
  - destruct (call_frame a st) as (_ & _ & Hother).
    destruct (Hother auth) as [-> ->]; [congruence|done].
  - case_decide; [|done].
    apply (Hwake _ k); try done. intros. by apply promise_all_settleUser_ne.
  - case_decide; [|done].
    apply (Hwake _ k); try done. intros. by apply promise_all_settleGuilds_ne.
  - rewrite lookup_delete_ne by done. done.
  - rewrite lookup_delete_ne by done. done.
Qed.

Lemma other_tokens_untouched_witness :
  let st := run (init {["g1"]}) lookup_trace in
  let ev := Call "other" in
  cache (step st ev) !! "token" = cache st !! "token" ∧
  discordPromises (step st ev) !! "token" = discordPromises st !! "token".
Proof.
  intros st ev.
  apply (other_tokens_untouched {["g1"]} lookup_trace "token" (Call "other")).
  simpl. discriminate.
Defined.

(** ** What the map holds *)

Lemma call_fresh a st :
  Inv st → inherited a = false →
  cache st !! a = None → discordPromises st !! a = None →
  call a st =
    mkState (cache st) (<[a := next st]> (discordPromises st))
            (requests st ++ [mkRequest users_me a; mkRequest users_me_guilds a])
            (S (next st)) (userRes st) (guildsRes st) (guildCache st)
            (waiters st ++ [(a, next st)]) (returned st).
Proof.
  intros HI Hi Hc He. unfold call, getUserFromAuthToken, begin.
  rewrite Hc, Hi, He. unfold continue, promise_all. simpl.
  by rewrite (fresh_user st HI (next st)), (fresh_guilds st HI (next st)) by lia.
Qed.

Lemma foldl_resume_deletes ws st w ud gd :
  w ∈ ws → promise_all st w.2 = AllResolved ud gd →
  discordPromises (foldl resume st ws) !! w.1 = None.
Proof.
  revert st. induction ws as [|w0 ws IH]; intros st Hin Hp.
  { by apply not_elem_of_nil in Hin. }
  simpl. apply elem_of_cons in Hin as [->|Hin].
  - destruct (discordPromises (foldl resume (resume st w0) ws) !! w0.1)
      as [k|] eqn:Hk; [|done].
    apply foldl_resume_entry_mono in Hk.
    pose proof (resume_cases st w0) as H. rewrite Hp in H. rewrite H in Hk.
    simpl in Hk. by rewrite lookup_delete_eq in Hk.
  - apply IH; [done|]. destruct (resume_frame st w0) as (_&_&?&?&_).
    by rewrite (promise_all_ext st).
Qed.

(** X6.  The map holds unfinished and failed lookups only.  In every
    reachable state a token with stored promises has no cached user, and its
    [Promise.all] is either pending, with a call for the token suspended on
    it, or rejected: a lookup that succeeded has left the map. *)
Theorem map_holds_pending_or_failed bot evs auth k :
  let st := run (init bot) evs in
  discordPromises st !! auth = Some k →
  cache st !! auth = None ∧
  ((promise_all st k = AllPending ∧ (auth, k) ∈ waiters st) ∨
   promise_all st k = AllRejected).
Proof.
  intros st He.
  assert (Inv st) as HI by apply Inv_run, Inv_init.
  split; [by apply (entry_miss st HI auth k)|].
  revert auth k He. unfold st. clear st HI.
  apply (reachable_ind (λ st, ∀ auth k,
    discordPromises st !! auth = Some k →
    (promise_all st k = AllPending ∧ (auth, k) ∈ waiters st) ∨
    promise_all st k = AllRejected)); [done|].
  intros st ev HI IH.
  assert (∀ st1, waiters st1 = waiters st →
            discordPromises st1 = discordPromises st →
            (∀ k, promise_all st k = AllRejected →
                  promise_all st1 k = AllRejected) →
            ∀ auth k, discordPromises (wake st1) !! auth = Some k →
              (promise_all (wake st1) k = AllPending ∧
               (auth, k) ∈ waiters (wake st1)) ∨
              promise_all (wake st1) k = AllRejected) as Hwake.
  { intros st1 Hw Hd Hrej auth k Hk.
    destruct (wake_frame st1) as (_&_&Hu&Hg&_).
    rewrite (promise_all_ext st1 (wake st1)) by done.
    pose proof (wake_entry_mono _ _ _ Hk) as Hk1. rewrite Hd in Hk1.
    destruct (IH auth k Hk1) as [[_ Hin]|Hr]; [|right; by apply Hrej].
    destruct (promise_all st1 k) as [|ud gd|] eqn:Hp; [left|exfalso|by right].
    - split; [done|]. unfold wake; simpl. apply list_elem_of_filter.
      by rewrite Hw.
    - unfold wake in Hk; simpl in Hk.
      pose proof (foldl_resume_deletes (waiters st1) st1 (auth, k) ud gd)
        as Hdel. simpl in Hdel. rewrite Hdel in Hk; [done|by rewrite Hw|done]. }
  destruct ev as [a|k0 o|k0 o|a|a|g|g]; simpl; try done.
  - intros auth k.
    destruct (cache st !! a) as [u|] eqn:Hc.
    { unfold call, getUserFromAuthToken, begin. rewrite Hc. by apply IH. }
    destruct (inherited a) eqn:Hi.
    { unfold call, getUserFromAuthToken, begin. rewrite Hc, Hi. by apply IH. }
    destruct (discordPromises st !! a) as [k1|] eqn:He.
    + unfold call, getUserFromAuthToken, begin. rewrite Hc, Hi, He.
      pose proof (continue_cases a k1 st) as H.
      destruct (IH a k1 He) as [[Hp _]|Hp]; rewrite Hp in H; rewrite H; simpl.
      * intros [[Hpd Hin]|Hr]%IH; [left|by right].
        split; [done|]. apply elem_of_app. by left.
      * by apply IH.
    + rewrite (call_fresh a st HI Hi Hc He). simpl.
      intros Hl. destruct (decide (auth = a)) as [->|Hne].
      * rewrite lookup_insert_eq in Hl. simplify_eq. left. split.
        -- unfold promise_all; simpl.
           by rewrite (fresh_user st HI (next st)),
                      (fresh_guilds st HI (next st)) by lia.
        -- apply elem_of_app. right. left.
      * rewrite lookup_insert_ne in Hl by done.
        destruct (IH auth k Hl) as [[Hpd Hin]|Hr]; [left|by right].
        split; [done|]. apply elem_of_app. by left.
  - case_decide as Hk; [|done]. destruct Hk as [_ Hnone].
    apply Hwake; try done. intros. by apply rejected_settleUser.
  - case_decide as Hk; [|done]. destruct Hk as [_ Hnone].
    apply Hwake; try done. intros. by apply rejected_settleGuilds.
Qed.

Lemma map_holds_pending_or_failed_witness :
  let st := run (init ∅) [Call "token"; Call "other";
                          SettleGuilds 0 Rejected] in
  discordPromises st !! "token" = Some 0 ∧
  promise_all st 0 = AllRejected ∧
  cache st !! "token" = None.
Proof.
  intros st.
  assert (discordPromises st !! "token" = Some 0) as He by (by vm_compute).
  split; [exact He|].
  destruct (map_holds_pending_or_failed ∅
              [Call "token"; Call "other"; SettleGuilds 0 Rejected]
              "token" 0 He) as [Hc [[Hp _]|Hr]].
  - exfalso. revert Hp. by vm_compute.
  - split; [exact Hr|exact Hc].
Defined.

(** ** The middleware *)

(** X7.  In every reachable state, when [authMiddleware] responds at once:
    a request handed on carries a non-empty auth cookie that is not the name
    of an inherited object member, and the user attached to it is the one
    the cache then holds for that token; a request ended with 401 (no
    cookie, an empty cookie, a cookie that names an inherited member such as
    "constructor", or a lookup that threw) has changed nothing, and in
    particular has caused no upstream request; and a cookie that names an
    inherited member is always answered with 401 at once. *)
Theorem middleware_response bot evs cookie :
  let st := run (init bot) evs in
  (∀ r st',
     authMiddleware cookie st = (Some r, st') →
     match r with
     | Next u =>
         ∃ auth, cookie = Some auth ∧ auth ≠ EmptyString ∧
                 inherited auth = false ∧
                 cache st' !! auth = Some u
     | Status401 => st' = st ∧ requests st' = requests st
     end) ∧
  (∀ auth, cookie = Some auth → inherited auth = true →
     authMiddleware cookie st = (Some Status401, st)).
Proof.
  intros st. assert (Inv st) as HI by apply Inv_run, Inv_init.
  assert (Own st) as [_ HO] by (apply Own_run; [apply Inv_init|apply Own_init]).
  split; [intros r st' Hm|].
  2:{ intros auth -> Hi. unfold authMiddleware.
      destruct (String.eqb auth EmptyString); [done|].
      unfold getUserFromAuthToken, begin.
      destruct (cache st !! auth) as [u|] eqn:Hc.
      { rewrite (HO _ _ Hc) in Hi. done. }
      by rewrite Hi. }
  revert Hm.
  unfold authMiddleware. destruct cookie as [auth|]; [|by intros [= <- <-]].
  destruct (String.eqb auth EmptyString) eqn:Hne; [by intros [= <- <-]|].
  apply String.eqb_neq in Hne.
  unfold getUserFromAuthToken, begin.
  destruct (cache st !! auth) as [u|] eqn:Hc.
  { intros [= <- <-]. exists auth. repeat split; try done. by apply (HO _ u). }
  destruct (inherited auth) eqn:Hi; [by intros [= <- <-]|].
  destruct (discordPromises st !! auth) as [k|] eqn:He.
  - pose proof (continue_cases auth k st) as H.
    destruct (promise_all st k) as [|ud gd|]; rewrite H; simpl;
      intros [= <- <-]; [|done].
    exists auth. simpl. by rewrite lookup_insert_eq.
  - unfold continue, promise_all. simpl.
    rewrite (fresh_user st HI (next st)), (fresh_guilds st HI (next st)) by lia.
    done.
Qed.

Lemma middleware_response_witness :
  let st := run (init {["g1"]}) lookup_trace in
  authMiddleware (Some "constructor") st = (Some Status401, st) ∧
  requests st = requests st.
Proof.
  intros st.
  assert (authMiddleware (Some "constructor") st = (Some Status401, st)) as H
    by (by vm_compute).
  split; [exact H|].
  exact (proj2 (proj1 (middleware_response {["g1"]} lookup_trace
                         (Some "constructor")) Status401 st H)).
Defined.

(** X8.  A token whose lookup failed is locked out.  Once one of the two
    requests made for a token has been rejected, [authMiddleware] ends every
    later request carrying that token with 401, whatever happens in
    between, and none of these requests reaches Discord or changes the
    state. *)
Theorem middleware_locked_out bot evs auth k evs' :
  let st := run (init bot) evs in
  Failed auth k st →
  let st' := run st evs' in
  authMiddleware (Some auth) st' = (Some Status401, st').
Proof.
  intros st HF st'.
  assert (Inv st) as HI by apply Inv_run, Inv_init.
  assert (Inv st') as HI' by by apply Inv_run.
  assert (Failed auth k st') as HF' by by apply Failed_run.
  unfold authMiddleware. destruct (String.eqb auth EmptyString); [done|].
  rewrite (call_failed auth k st'); [done| |done].
  destruct HF' as [He _]. by apply (entry_miss st' HI' _ k).
Qed.

Lemma middleware_locked_out_witness :
  let st := run (init ∅) [Call "token"; SettleUser 0 Rejected] in
  let st' := run st [Expire "token"; Call "token";
                     SettleGuilds 0 (Resolved [])] in
  Failed "token" 0 st ∧
  authMiddleware (Some "token") st' = (Some Status401, st').
Proof.
  assert (Failed "token" 0
            (run (init ∅) [Call "token"; SettleUser 0 Rejected])) as HF
    by (split; vm_compute; reflexivity).
  split; [exact HF|].
  exact (middleware_locked_out ∅ [Call "token"; SettleUser 0 Rejected]
           "token" 0
           [Expire "token"; Call "token"; SettleGuilds 0 (Resolved [])] HF).
Defined.

End AuthMore.

Module ChatGptFacts.
Import ChatGpt.

Lemma chat_run_snoc st evs ev : run st (evs ++ [ev]) = step (run st evs) ev.
Proof. unfold run. by rewrite foldl_app. Qed.

Lemma chat_reachable_ind (P : State → Prop) b :
  P (init b) →
  (∀ st ev, P st → P (step st ev)) →
  ∀ evs, P (run (init b) evs).
Proof.
  intros H0 Hstep evs. induction evs as [|ev evs IH] using rev_ind; [done|].
  rewrite chat_run_snoc. by apply Hstep.
Qed.

(** What [ask] and [answer] do, case by case. *)
Lemma ask_cases apiKey admitted query userId guildId st :
  (∃ e, ask apiKey admitted query userId guildId st = (Threw e, st) ∧
        (e = NotConfigured ∨ (e = RateLimited ∧ admitted = false))) ∨
  (admitted = true ∧
   (∃ k, apiKey = Some k ∧ k ≠ EmptyString) ∧
   ask apiKey admitted query userId guildId st =
     (Awaiting (conversationKey userId guildId) query,
      mkState (conversations st)
              (sent st ++ [conversationOf (conversationKey userId guildId) st
                           ++ [userMessage query]])
              (awaiting st) (replied st))).
Proof.
  unfold ask. destruct apiKey as [k|]; [|left; eauto].
  destruct (String.eqb k EmptyString) eqn:Hk; [left; eauto|].
  apply String.eqb_neq in Hk.
  destruct admitted; simpl; [right; eauto|left; eauto].
Qed.

Lemma answer_conversations key q c st r st' :
  answer key q c st = (r, st') →
  sent st' = sent st ∧ awaiting st' = awaiting st ∧ replied st' = replied st ∧
  ((conversations st' = conversations st) ∨
   (∃ m rest cache,
      c = Completed (Some m :: rest) ∧ conversations st = Some cache ∧
      (∃ text, r = inr text) ∧
      conversations st' =
        Some (<[key := conversationOf key st ++ [userMessage q; m]]> cache))).
Proof.
  unfold answer. destruct c as [[|[m|] rest]|]; try (intros [= <- <-]; tauto).
  destruct (conversations st) as [cache|] eqn:Hc; intros [= <- <-]; simpl.
  - repeat split; try done. right. exists m, rest, cache. eauto 10.
  - rewrite Hc. tauto.
Qed.

Lemma alternates_app conversation query m :
  alternates conversation →
  alternates (conversation ++ [userMessage query; m]).
Proof.
  assert (∀ l,
    (alternates l → alternates (l ++ [userMessage query; m])) ∧
    (∀ a, alternates (a :: l) → alternates (a :: l ++ [userMessage query; m])))
    as H; [|by apply H].
  induction l as [|b l [IH1 IH2]].
  - split; [by intros _; simpl; eauto|by intros a []].
  - split; [by apply IH2|]. intros a (?&?&?). simpl. eauto.
Qed.

(** X9.  Stored conversations are whole exchanges.  Whatever calls,
    responses and expiries happen, every conversation in the cache is a
    non-empty sequence of exchanges: a user message carrying a query, then
    the message the API answered it with. *)
Theorem conversations_alternate b evs key conversation cache :
  let st := run (init b) evs in
  conversations st = Some cache →
  cache !! key = Some conversation →
  alternates conversation ∧ conversation ≠ [].
Proof.
  simpl. revert key conversation cache.
  apply (chat_reachable_ind (λ st, ∀ key conversation cache,
    conversations st = Some cache → cache !! key = Some conversation →
    alternates conversation ∧ conversation ≠ [])).
  { intros key conversation cache. destruct b; simpl; [|done].
    intros [= <-]. by rewrite lookup_empty. }
  intros st ev IH key conversation cache.
  destruct ev as [apiKey admitted query userId guildId|i c|key']; simpl.
  - destruct (ask_cases apiKey admitted query userId guildId st)
      as [(e & -> & _)|(_ & _ & ->)]; simpl; apply IH.
  - destruct (awaiting st !! i) as [[k q]|]; [|by apply IH].
    destruct (answer k q c _) as [r st'] eqn:Ha. simpl.
    apply answer_conversations in Ha as (_ & _ & _ & [Hc|Hc]); simpl in Hc.
    + rewrite Hc. apply IH.
    + destruct Hc as (m & rest & cache0 & _ & Hc0 & _ & ->).
      intros [= <-]. destruct (decide (key = k)) as [->|Hne].
      * rewrite lookup_insert_eq. intros [= <-]. split.
        -- apply alternates_app. unfold conversationOf. simpl. rewrite Hc0.
           simpl. destruct (cache0 !! k) as [l|] eqn:Hl; [|done].
           by apply (IH k l cache0).
        -- by destruct (conversationOf k _).
      * rewrite lookup_insert_ne by done. by apply IH.
  - destruct (conversations st) as [cache0|] eqn:Hc; [|done]. simpl.
    intros [= <-]. intros [_ Hl]%lookup_delete_Some.
    by apply (IH key conversation cache0).
Qed.

Lemma conversations_alternate_witness :
  let evs := [Ask (Some "sk") true "hi" "7" (GuildIdString "9");
              Answer 0 (Completed [Some (mkMessage "assistant" (Some "hello"))])] in
  let conversation :=
    [userMessage "hi"; mkMessage "assistant" (Some "hello")] in
  conversations (run (init true) evs) = Some {["79" := conversation]} ∧
  alternates conversation.
Proof.
  intros evs conversation.
  assert (conversations (run (init true) evs)
            = Some {["79" := conversation]}) as Hc by (by vm_compute).
  split; [exact Hc|].
  apply (conversations_alternate true evs "79" conversation _ Hc).
  by vm_compute.
Defined.

(** X10.  An exchange is remembered.  With the conversation cache
    configured, after a response with a message for a query, the conversation
    of that key is the one before followed by the query and the response
    message, the conversations of other keys are as before, and the next
    admitted question under the same key sends exactly that history followed
    by the new query. *)
Theorem exchange_remembered st cache key query m rest apiKey query' userId guildId :
  conversations st = Some cache →
  truthy_key apiKey = true →
  conversationKey userId guildId = key →
  let st' := (answer key query (Completed (Some m :: rest)) st).2 in
  conversationOf key st' = conversationOf key st ++ [userMessage query; m] ∧
  (∀ key', key' ≠ key → conversationOf key' st' = conversationOf key' st) ∧
  sent (ask apiKey true query' userId guildId st').2 =
    sent st ++ [conversationOf key st
                ++ [userMessage query; m; userMessage query']].
Proof.
  intros Hc Hk Hkey st'.
  assert (conversationOf key st'
            = conversationOf key st ++ [userMessage query; m]) as Hconv.
  { unfold st', answer, conversationOf at 1. simpl. rewrite Hc. simpl.
    by rewrite lookup_insert_eq. }
  split; [done|]. split.
  - intros key' Hne. unfold st', answer, conversationOf at 1. simpl.
    rewrite Hc. simpl. rewrite lookup_insert_ne by done.
    unfold conversationOf. by rewrite Hc.
  - destruct apiKey as [k|]; [|done]. simpl in Hk.
    apply negb_true_iff in Hk. unfold ask. rewrite Hk. simpl.
    rewrite Hkey, Hconv, <-app_assoc.
    unfold st', answer. simpl. by rewrite Hc.
Qed.

Lemma exchange_remembered_witness :
  let st := init true in
  let m := mkMessage "assistant" (Some "hello") in
  let st' := (answer "79" "hi" (Completed [Some m]) st).2 in
  conversationOf "79" st' = [userMessage "hi"; m] ∧
  sent (ask (Some "sk") true "and?" "7" (GuildIdString "9") st').2 =
    [[userMessage "hi"; m; userMessage "and?"]].
Proof.
  intros st m st'.
  destruct (exchange_remembered st ∅ "79" "hi" m [] (Some "sk") "and?" "7"
              (GuildIdString "9") eq_refl eq_refl eq_refl) as (H1 & _ & H3).
  split; [exact H1|exact H3].
Defined.

Lemma answer_text key q c st text st' :
  answer key q c st = (inr text, st') →
  text ≠ EmptyString ∧
  (text = somethingWentWrong ∨
   ∃ m rest, c = Completed (Some m :: rest) ∧ content m = Some text).
Proof.
  unfold answer. destruct c as [[|[m|] rest]|]; try done.
  - intros [= <- _]. simpl. destruct (content m) as [t|] eqn:Hm; simpl.
    + destruct (String.eqb t EmptyString) eqn:Ht.
      * split; [done|by left].
      * apply String.eqb_neq in Ht. split; [done|]. right. eauto.
    + split; [done|by left].
  - intros [= <- _]. split; [done|by left].
Qed.

(** X11.  No reply is empty, and a reply is what the first choice says.
    Whatever happens, no text a call has returned is the empty string.  And
    when the request of a suspended call ends, the call returns at once:
    it throws when the request failed or the response has no choice;
    otherwise it returns the content of the first choice's message when
    there is one and it is not empty, and the fixed apology when the
    message or its content is missing or empty. *)
Theorem replies_never_empty b evs :
  let st := run (init b) evs in
  (∀ text, inr text ∈ replied st → text ≠ EmptyString) ∧
  (∀ i key q c, awaiting st !! i = Some (key, q) →
     ∃ r, replied (step st (Answer i c)) = replied st ++ [r] ∧
       match c with
       | Failed => r = inl RequestFailed
       | Completed [] => r = inl TypeError
       | Completed (m :: _) =>
           ∃ text, r = inr text ∧ text ≠ EmptyString ∧
             (m ≫= content = Some text ∨
              (text = somethingWentWrong ∧
               (m ≫= content = None ∨ m ≫= content = Some EmptyString)))
       end).
Proof.
  simpl. split.
  - apply (chat_reachable_ind (λ st, ∀ text,
      inr text ∈ replied st → text ≠ EmptyString)).
    { intros text. destruct b; by intros ?%not_elem_of_nil. }
    intros st ev IH text.
    destruct ev as [apiKey admitted query userId guildId|i c|key']; simpl;
      [| |by apply IH].
    + destruct (ask_cases apiKey admitted query userId guildId st)
        as [(e & -> & _)|(_ & _ & ->)]; simpl; [|by apply IH].
      intros [?|[=]%list_elem_of_singleton]%elem_of_app. by apply IH.
    + destruct (awaiting st !! i) as [[k q]|]; [|by apply IH].
      destruct (answer k q c _) as [r st'] eqn:Ha. simpl.
      pose proof (answer_conversations _ _ _ _ _ _ Ha) as (_ & _ & -> & _).
      simpl. intros [?|Hx%list_elem_of_singleton]%elem_of_app; [by apply IH|].
      subst r. by apply answer_text in Ha as [? _].
  - intros i key q c Hi. cbn [step]. rewrite Hi.
    destruct (answer key q c _) as [r st'] eqn:Ha.
    pose proof (answer_conversations _ _ _ _ _ _ Ha) as (_ & _ & Hr & _).
    exists r. simpl. rewrite Hr. simpl. split; [done|].
    unfold answer in Ha. destruct c as [[|m rest]|].
    + by injection Ha as <- _.
    + injection Ha as <- _. eexists. split; [done|].
      destruct (m ≫= content) as [t|]; [|split; [done|]; right; eauto].
      destruct (String.eqb t EmptyString) eqn:Ht.
      * apply String.eqb_eq in Ht. subst t. split; [done|]. right. eauto.
      * apply String.eqb_neq in Ht. split; [done|]. by left.
    + by injection Ha as <- _.
Qed.

Lemma replies_never_empty_witness :
  let evs := [Ask (Some "sk") true "hi" "7" (GuildIdString "9");
              Answer 0 (Completed [Some (mkMessage "assistant" (Some EmptyString))])] in
  replied (run (init true) evs) = [inr somethingWentWrong] ∧
  somethingWentWrong ≠ EmptyString.
Proof.
  intros evs. split; [reflexivity|].
  destruct (replies_never_empty true evs) as [H _].
  apply H. vm_compute. left.
Defined.

(** X12.  Without the conversation cache every question stands alone.
    When [CHATGPT_CONVERSATION_TIME_LIMIT] is not set, nothing is ever
    stored, and the requests made to the API are, in order, those of the
    calls that got as far as their request, each carrying exactly one
    message: the user message with the query of that call. *)
Theorem no_cache_no_history evs :
  let st := run (init false) evs in
  conversations st = None ∧
  sent st = (λ query, [userMessage query]) <$> omap requested evs ∧
  Forall (λ messages, ∃ query, messages = [userMessage query]) (sent st).
Proof.
  simpl.
  assert (conversations (run (init false) evs) = None ∧
          sent (run (init false) evs)
            = (λ query, [userMessage query]) <$> omap requested evs)
    as [Hc Hs].
  { induction evs as [|ev evs [Hc Hs]] using rev_ind; [done|].
    rewrite chat_run_snoc, omap_app, fmap_app.
    destruct ev as [apiKey admitted query userId guildId|i c|key']; simpl.
    - unfold ask, truthy_key. destruct apiKey as [k|]; simpl;
        [|by rewrite app_nil_r].
      destruct (String.eqb k EmptyString); simpl; [by rewrite app_nil_r|].
      destruct admitted; simpl; [|by rewrite app_nil_r].
      split; [done|]. rewrite Hs. unfold conversationOf. by rewrite Hc.
    - rewrite app_nil_r. destruct (awaiting _ !! i) as [[k q]|]; [|done].
      destruct (answer k q c _) as [r st'] eqn:Ha. simpl.
      apply answer_conversations in Ha as (-> & _ & _ & [->|Hx]); simpl.
      + done.
      + destruct Hx as (m & rest & cache & _ & Hx & _). simpl in Hx.
        congruence.
    - rewrite Hc, app_nil_r. done. }
  split; [done|]. split; [done|].
  rewrite Hs. apply Forall_fmap, Forall_forall. intros query _. simpl.
  by exists query.
Qed.

Lemma no_cache_no_history_witness :
  sent (run (init false)
            [Ask (Some "sk") true "hi" "7" (GuildIdString "9");
             Ask None true "lost" "7" (GuildIdString "9");
             Answer 0 (Completed [Some (mkMessage "assistant" (Some "yo"))]);
             Ask (Some "sk") true "again" "7" (GuildIdString "9")])
    = [[userMessage "hi"]; [userMessage "again"]].
Proof.
  by destruct (no_cache_no_history
       [Ask (Some "sk") true "hi" "7" (GuildIdString "9");
        Ask None true "lost" "7" (GuildIdString "9");
        Answer 0 (Completed [Some (mkMessage "assistant" (Some "yo"))]);
        Ask (Some "sk") true "again" "7" (GuildIdString "9")])
    as (_ & -> & _).
Defined.

(** X13.  A call that throws stores nothing.  Whenever a step of an
    execution ends a call with an exception (the bot is not configured, the
    rate limiter refuses, the request fails, the response has no choice),
    every conversation is as it was before the step; and when the exception
    comes before the request (not configured, rate limited), no request was
    made. *)
Theorem failed_call_keeps_conversations st ev e :
  replied (step st ev) = replied st ++ [inl e] →
  conversations (step st ev) = conversations st ∧
  (e = NotConfigured ∨ e = RateLimited → sent (step st ev) = sent st).
Proof.
  destruct ev as [apiKey admitted query userId guildId|i c|key']; simpl.
  - destruct (ask_cases apiKey admitted query userId guildId st)
      as [(e' & -> & _)|(_ & _ & ->)]; simpl; [done|].
    intros H. apply (f_equal length) in H. rewrite length_app in H.
    simpl in H. lia.
  - destruct (awaiting st !! i) as [[k q]|].
    2:{ intros H. apply (f_equal length) in H. rewrite length_app in H.
        simpl in H. lia. }
    destruct (answer k q c _) as [r st'] eqn:Ha. simpl.
    pose proof (answer_conversations _ _ _ _ _ _ Ha) as (Hs & _ & Hr & Hc).
    rewrite Hr. simpl. intros [= ->]%(inj (app _)).
    split; [|by intros _; rewrite Hs].
    destruct Hc as [->|(m & rest & cache & _ & _ & [text [=]] & _)]. done.
  - intros H. apply (f_equal length) in H. rewrite length_app in H.
    simpl in H. lia.
Qed.

Lemma failed_call_keeps_conversations_witness :
  let st := run (init true)
              [Ask (Some "sk") true "hi" "7" (GuildIdString "9");
               Answer 0 (Completed [Some (mkMessage "assistant" (Some "hello"))]);
               Ask (Some "sk") true "and?" "7" (GuildIdString "9")] in
  let ev := Answer 0 (Completed []) in
  replied (step st ev) = replied st ++ [inl TypeError] ∧
  conversations (step st ev) = conversations st.
Proof.
  intros st ev.
  assert (replied (step st ev) = replied st ++ [inl TypeError]) as H
    by reflexivity.
  split; [exact H|].
  exact (proj1 (failed_call_keeps_conversations st ev TypeError H)).
Defined.

Lemma step_ask st apiKey query userId guildId :
  truthy_key apiKey = true →
  step st (Ask apiKey true query userId guildId) =
    mkState (conversations st)
            (sent st ++ [conversationOf (conversationKey userId guildId) st
                         ++ [userMessage query]])
            (awaiting st ++ [(conversationKey userId guildId, query)])
            (replied st).
Proof.
  intros Hk. destruct apiKey as [k|]; [|done]. simpl in Hk.
  apply negb_true_iff in Hk. simpl. unfold ask. by rewrite Hk.
Qed.

Lemma step_answer st ws key q ws' m cache :
  awaiting st = ws ++ (key, q) :: ws' →
  conversations st = Some cache →
  step st (Answer (length ws) (Completed [Some m])) =
    mkState (Some (<[key := conversationOf key st ++ [userMessage q; m]]> cache))
            (sent st) (ws ++ ws')
            (replied st ++ [inr (match content m with
                                 | Some text =>
                                     if String.eqb text EmptyString
                                     then somethingWentWrong else text
                                 | None => somethingWentWrong
                                 end)]).
Proof.
  intros Hw Hc. simpl. rewrite Hw, list_lookup_middle by done.
  unfold answer, conversationOf. simpl. rewrite Hc. simpl.
  by rewrite delete_middle.
Qed.

(** X14.  Overlapping questions lose no exchange.  When the same user asks
    a second question before the first is answered, the second request is
    sent with the history as it stood, without the first exchange; but each
    response is appended to the conversation as it stands when the response
    arrives, so in the end the conversation holds both exchanges, in the
    order the responses arrived. *)
Theorem overlapping_questions st cache apiKey userId guildId q1 q2 m1 m2 :
  conversations st = Some cache →
  truthy_key apiKey = true →
  let key := conversationKey userId guildId in
  let n := length (awaiting st) in
  let st' := run st [Ask apiKey true q1 userId guildId;
                     Ask apiKey true q2 userId guildId;
                     Answer n (Completed [Some m1]);
                     Answer n (Completed [Some m2])] in
  sent st' = sent st ++ [conversationOf key st ++ [userMessage q1];
                         conversationOf key st ++ [userMessage q2]] ∧
  conversationOf key st' =
    conversationOf key st ++ [userMessage q1; m1; userMessage q2; m2] ∧
  awaiting st' = awaiting st.
Proof.
  intros Hc Hk key n st'. unfold st', run, n. cbn [foldl].
  rewrite (step_ask st) by done. fold key.
  rewrite step_ask by done. cbn [conversations sent awaiting replied].
  fold key.
  set (st2 := mkState _ _ _ _).
  assert (conversationOf key st2 = conversationOf key st) as Hconv2.
  { unfold conversationOf. by simpl. }
  rewrite (step_answer st2 (awaiting st) key q1 [(key, q2)] m1 cache);
    [|by unfold st2; simpl; rewrite <-app_assoc|done].
  rewrite Hconv2. cbn [sent replied].
  set (st3 := mkState _ _ _ _).
  assert (conversationOf key st3
            = conversationOf key st ++ [userMessage q1; m1]) as Hconv3.
  { unfold conversationOf. simpl. by rewrite lookup_insert_eq. }
  rewrite (step_answer st3 (awaiting st) key q2 [] m2
             (<[key := conversationOf key st ++ [userMessage q1; m1]]> cache));
    [|done..].
  rewrite Hconv3. simpl. split; [by rewrite <-app_assoc|]. split.
  - unfold conversationOf at 1. simpl. rewrite lookup_insert_eq. simpl.
    by rewrite <-app_assoc.
  - by rewrite app_nil_r.
Qed.

Lemma overlapping_questions_witness :
  let a := mkMessage "assistant" (Some "one") in
  let b := mkMessage "assistant" (Some "two") in
  let st' := run (init true)
               [Ask (Some "sk") true "first" "7" GuildIdNull;
                Ask (Some "sk") true "second" "7" GuildIdNull;
                Answer 0 (Completed [Some a]); Answer 0 (Completed [Some b])] in
  sent st' = [[userMessage "first"]; [userMessage "second"]] ∧
  conversationOf "7null" st' =
    [userMessage "first"; a; userMessage "second"; b].
Proof.
  intros a b st'.
  destruct (overlapping_questions (init true) ∅ (Some "sk") "7" GuildIdNull
              "first" "second" a b eq_refl eq_refl) as (H1 & H2 & _).
  split; [exact H1|exact H2].
Defined.

(** X15.  Conversation keys.  The key is the user id followed by the guild
    id as text, so a [null] or [undefined] guild id is spelt out in the key
    and [run], which passes [''] outside guilds, keys a direct-message
    conversation by the user id alone; two calls whose user ids have the
    same length share a conversation only if they have the same user id and
    the same guild id text. *)
Theorem conversationKey_separates (userId1 userId2 : string) guildId1 guildId2 :
  String.length userId1 = String.length userId2 →
  conversationKey userId1 guildId1 = conversationKey userId2 guildId2 →
  userId1 = userId2 ∧ guildIdText guildId1 = guildIdText guildId2.
Proof.
  unfold conversationKey. generalize (guildIdText guildId1) (guildIdText guildId2).
  intros g1 g2. revert userId2.
  induction userId1 as [|c u1 IH]; intros [|c' u2] Hlen Heq;
    simpl in *; try done.
  injection Heq as -> Heq. destruct (IH u2) as [-> ->]; [lia|done|done].
Qed.

Lemma conversationKey_separates_witness :
  conversationKey "12" (GuildIdString "3") = "123" ∧
  conversationKey "12" (runGuildId None) = "12" ∧
  conversationKey "12" GuildIdUndefined = "12undefined" ∧
  ("12" = "12" ∧ guildIdText (GuildIdString "3") = guildIdText (GuildIdString "3")).
Proof.
  split; [reflexivity|]. split; [reflexivity|]. split; [reflexivity|].
  apply (conversationKey_separates "12" "12" (GuildIdString "3")
           (GuildIdString "3")); reflexivity.
Defined.

End ChatGptFacts.

Module PlayerMore.
Import Player PlayerFacts.

(** ** The order of the checks in [play] *)

Lemma numArgs_pos inputs :
  truthy (vodLink inputs) || truthy (streamLink inputs)
    || truthy (queryStr inputs) = true →
  bool_decide (numArgs inputs = 0) = false.
Proof.
  intros H. apply bool_decide_eq_false. unfold numArgs.
  rewrite !filter_cons, filter_nil.
  destruct (truthy (vodLink inputs)), (truthy (streamLink inputs)),
           (truthy (queryStr inputs)); simpl in *; done.
Qed.

(** X16.  A link wins over a stream link, and a stream link over a query.
    When [link] is given, [play] does the same whatever [stream] and
    [query] are; when [link] is not given and [stream] is, it does the same
    whatever [query] is. *)
Theorem arguments_take_precedence E rndS rndQ i reg vod stream query front shuf
    stream' query' :
  truthy vod = true ∨
  (truthy vod = false ∧ truthy stream = true ∧ stream' = stream) →
  play E rndS rndQ i (mkInputs vod stream query front shuf) reg =
  play E rndS rndQ i (mkInputs vod stream' query' front shuf) reg.
Proof.
  intros [Hv|(Hv & Hs & ->)].
  - unfold play. fold (numArgs (mkInputs vod stream query front shuf)).
    fold (numArgs (mkInputs vod stream' query' front shuf)).
    rewrite !numArgs_pos by (simpl; by rewrite Hv).
    unfold playInto. simpl. by rewrite Hv.
  - unfold play.
    fold (numArgs (mkInputs vod stream query front shuf)).
    fold (numArgs (mkInputs vod stream query' front shuf)).
    rewrite !numArgs_pos by (simpl; by rewrite Hs, orb_true_r).
    unfold playInto. simpl. by rewrite Hv, Hs.
Qed.

Lemma arguments_take_precedence_witness :
  let i := mkInteraction "guild" (Some "user") (Some (mkChannel "voice" true)) in
  play exampleEnv [] [] i
       (mkInputs (Some "link") (Some "stream") (Some "query") false false) [] =
  play exampleEnv [] [] i (mkInputs (Some "link") None None false false) [].
Proof.
  intros i.
  apply (arguments_take_precedence exampleEnv [] [] i [] (Some "link")
           (Some "stream") (Some "query") false false None None).
  by left.
Defined.

(** X17.  The three checks that come first.  When the invoking user
    cannot be resolved, is not connected to a voice channel, or is in one the
    bot cannot join, [play] sends the one matching reply (in this order of
    precedence) and does nothing else, whatever the arguments: the registry
    is as before, no session is created or resumed, nothing is enqueued. *)
Theorem guards_reply_and_stop E rndS rndQ i inputs reg :
  i_user i = None ∨ i_voice i = None ∨
  (∃ ch, i_voice i = Some ch ∧ joinable ch = false) →
  play E rndS rndQ i inputs reg =
    mkResult reg
      [EditReply
         (match i_user i, i_voice i with
          | None, _ => "Could not resolve user invoking command."
          | Some _, None => "You must be connected to a voice channel."
          | Some _, Some _ =>
              "I don't have permission to connect to your voice channel."
          end)]
      None false None.
Proof.
  unfold play, replyOnly. intros [Hu|[Hv|(ch & Hv & Hj)]].
  - by rewrite Hu.
  - rewrite Hv. by destruct (i_user i).
  - rewrite Hv, Hj. by destruct (i_user i).
Qed.

Lemma guards_reply_and_stop_witness :
  let s := mkSession "guild" (mkChannel "voice" false) [] None false true in
  let i := mkInteraction "guild" (Some "user") (Some (mkChannel "voice" false)) in
  play exampleEnv [] [] i (mkInputs None None (Some "song") true true) [s] =
    mkResult [s]
      [EditReply "I don't have permission to connect to your voice channel."]
      None false None.
Proof.
  intros s i.
  apply (guards_reply_and_stop exampleEnv [] [] i
           (mkInputs None None (Some "song") true true) [s]).
  right. right. by exists (mkChannel "voice" false).
Defined.

(** ** Sessions and guilds *)

Lemma session_enqueue_guild tracks front s :
  guild (session_enqueue tracks front s).2 = guild s.
Proof.
  unfold session_enqueue, advance, set_queue. simpl.
  destruct (bool_decide _); simpl; [done|].
  by destruct (append tracks front (queue s)).
Qed.

Lemma enqueue_guild E s tracks front :
  guild (enqueue E s tracks front).1 = guild s.
Proof. rewrite enqueue_session. apply session_enqueue_guild. Qed.

Lemma enqueueAndRespond_guild E s tracks front :
  guild (enqueueAndRespond E s tracks front).1.1.1 = guild s.
Proof.
  unfold enqueueAndRespond. pose proof (enqueue_guild E s tracks front) as H.
  by destruct (enqueue E s tracks front) as [s' [e|m]].
Qed.

Lemma caught_guild r : guild (caught r).1.1.1 = guild r.1.1.1.
Proof. by destruct r as [[[s rs] [e|]] bg]. Qed.

Lemma enqueueQueries_guild E rnd s queries :
  guild (enqueueQueries E rnd s queries).1 = guild s.
Proof.
  unfold enqueueQueries.
  destruct (if isShuffled s then _ else _) as [|q rest]; [done|].
  destruct (getTracksFromQueries E [q]) as [|t ts]; [done|].
  pose proof (enqueue_guild E s [t] false) as H.
  by destruct (enqueue E s [t] false) as [s' [e|m]].
Qed.

Lemma playSpotify_guild E rndQ s l front :
  guild (playSpotify E rndQ s l front).1.1.1 = guild s.
Proof.
  unfold playSpotify.
  destruct (parseSpotifyLink E l) as [[]|]; try done.
  - destruct (parseSpotifyPlaylist E l) as [qs|]; [|done]. case_bool_decide.
    + pose proof (enqueueQueries_guild E rndQ s qs) as Hq.
      by destruct (enqueueQueries E rndQ s qs) as [s' [e|r]].
    + by rewrite caught_guild, enqueueAndRespond_guild.
  - destruct (parseSpotifyAlbum E l) as [qs|]; [|done]. case_bool_decide.
    + pose proof (enqueueQueries_guild E rndQ s qs) as Hq.
      by destruct (enqueueQueries E rndQ s qs) as [s' [e|r]].
    + by rewrite caught_guild, enqueueAndRespond_guild.
  - destruct (parseSpotifyTrack E l) as [q|]; [|done].
    by rewrite caught_guild, enqueueAndRespond_guild.
Qed.

Lemma playInto_guild E rndQ s inputs :
  guild (playInto E rndQ s inputs).1.1.1 = guild s.
Proof.
  unfold playInto.
  repeat (case_match; try done);
    by rewrite ?playSpotify_guild, ?enqueueAndRespond_guild.
Qed.

Lemma sessions_get_app_ne g s reg :
  guild s ≠ g → sessions_get g (reg ++ [s]) = sessions_get g reg.
Proof.
  intros Hne. unfold sessions_get.
  induction reg as [|s0 reg IH]; simpl.
  - by rewrite decide_False.
  - case_decide; [done|].
    destruct (list_find _ (reg ++ [s])) as [[]|],
             (list_find _ reg) as [[]|]; simpl in *; by simplify_eq.
Qed.

(** X18.  [play] keeps to its guild.  Whatever the arguments and whatever
    becomes of them, the session registered for any other guild is after
    [play] what it was before, and no guild that had a session is left
    without one. *)
Theorem play_keeps_to_its_guild E rndS rndQ i inputs reg g :
  let r := play E rndS rndQ i inputs reg in
  (g ≠ i_guild i → sessions_get g (registry r) = sessions_get g reg) ∧
  (is_Some (sessions_get g reg) → is_Some (sessions_get g (registry r))).
Proof.
  intros r. split.
  - intros Hne. unfold r, play, replyOnly.
    destruct (i_user i) as [user|]; [|done].
    destruct (i_voice i) as [ch|]; [|done].
    destruct (joinable ch); simpl; [|done].
    destruct (sessions_get (i_guild i) reg) as [s|] eqn:Hget; simpl.
    + rewrite andb_false_r.
      apply sessions_get_Some in Hget as [_ Hg].
      pose proof (playInto_guild E rndQ
                    (if shuffle inputs then session_shuffle rndS (session_resume s)
                     else session_resume s) inputs) as Hp.
      destruct (playInto _ _ _ _) as [[[s' rs] e] bg]. simpl in *.
      rewrite !sessions_get_store_ne; [done|simpl; congruence|].
      rewrite Hp. destruct (shuffle inputs); simpl; congruence.
    + rewrite andb_true_r. case_bool_decide; simpl; [done|].
      unfold sessions_create. rewrite Hget.
      pose proof (playInto_guild E rndQ
                    (if shuffle inputs
                     then session_shuffle rndS (newSession (i_guild i) ch)
                     else newSession (i_guild i) ch) inputs) as Hp.
      destruct (playInto _ _ _ _) as [[[s' rs] e] bg]. simpl in *.
      rewrite sessions_get_store_ne.
      * by apply sessions_get_app_ne.
      * rewrite Hp. by destruct (shuffle inputs).
  - intros [s Hs]. apply not_eq_None_Some. intros Hn.
    apply sessions_get_None in Hn. apply Hn. unfold r.
    assert (g ∈ guild <$> reg) as Hin.
    { apply sessions_get_Some in Hs as [Hin <-]. by apply list_elem_of_fmap_2. }
    destruct (play_guilds E rndS rndQ i inputs reg) as [[_ ->]|(_ & _ & ->)];
      [done|]. apply elem_of_app. by left.
Qed.

(** ** Sessions created on the way *)

Lemma store_other s reg :
  sessions_get (guild s) reg = None → store s reg = reg.
Proof.
  intros Hn%sessions_get_None. unfold store.
  induction reg as [|s0 reg IH]; [done|]. simpl.
  rewrite fmap_cons in Hn. apply not_elem_of_cons in Hn as [Hne Hn].
  rewrite decide_False by done. f_equal. by apply IH.
Qed.

Lemma store_last s s0 reg :
  sessions_get (guild s) reg = None → guild s0 = guild s →
  store s (reg ++ [s0]) = reg ++ [s].
Proof.
  intros Hn Hg. unfold store. rewrite fmap_app. simpl.
  rewrite decide_True by done. f_equal. by apply store_other.
Qed.

(** X19.  The session is created before the arguments are looked at.
    When [play] gets past its first checks with at least one argument for a
    guild that has no session, it creates and registers one, whatever
    becomes of the arguments.  In particular a stream link that is not a
    YouTube video is answered with 'Invalid YouTube link.', and a link that
    nothing recognises makes [play] throw 'Invalid link.' without a reply,
    and both leave behind an idle session with an empty queue. *)
Theorem session_created_before_arguments E rndS rndQ i inputs reg user ch :
  i_user i = Some user → i_voice i = Some ch → joinable ch = true →
  sessions_get (i_guild i) reg = None →
  numArgs inputs ≠ 0 →
  let r := play E rndS rndQ i inputs reg in
  let idle := mkSession (i_guild i) ch [] None (shuffle inputs) false in
  created r = true ∧
  guild <$> registry r = (guild <$> reg) ++ [i_guild i] ∧
  (truthy (vodLink inputs) = false →
   truthy (streamLink inputs) = true →
   validateVideo E (default EmptyString (streamLink inputs)) = false →
   r = mkResult (reg ++ [idle]) [EditReply "Invalid YouTube link."]
                None true None) ∧
  (truthy (vodLink inputs) = true →
   isTwitchVodLink E (default EmptyString (vodLink inputs)) = false →
   validateVideo E (default EmptyString (vodLink inputs)) = false →
   validatePlaylist E (default EmptyString (vodLink inputs)) = false →
   parseSpotifyLink E (default EmptyString (vodLink inputs)) = None →
   r = mkResult (reg ++ [idle]) [] (Some invalidLink) true None).
Proof.
  intros Hu Hv Hj Hget Hn r idle.
  assert (idle = if shuffle inputs
                 then session_shuffle rndS (newSession (i_guild i) ch)
                 else newSession (i_guild i) ch) as Hidle.
  { unfold idle. by destruct (shuffle inputs). }
  assert (∀ rs e bg s',
            guild s' = i_guild i →
            mkResult (store s' (reg ++ [newSession (i_guild i) ch])) rs e true bg
            = mkResult (reg ++ [s']) rs e true bg) as Hstore.
  { intros rs e bg s' Hg. rewrite store_last; [done| |done].
    by rewrite Hg. }
  assert (r = let '(s', rs, e, bg) := playInto E rndQ idle inputs in
              mkResult (store s' (reg ++ [newSession (i_guild i) ch]))
                       rs e true bg) as Hr.
  { unfold r, play. fold (numArgs inputs). rewrite Hu, Hv, Hj, Hget. simpl.
    rewrite (bool_decide_eq_false_2 (numArgs inputs = 0)) by done. simpl.
    unfold sessions_create. rewrite Hget. by rewrite <-Hidle. }
  pose proof (playInto_guild E rndQ idle inputs) as Hg.
  split; [|split; [|split]].
  - rewrite Hr. by destruct (playInto _ _ _ _) as [[[s' rs] e] bg].
  - rewrite Hr. destruct (playInto _ _ _ _) as [[[s' rs] e] bg]. simpl.
    by rewrite store_guilds, fmap_app.
  - intros H1 H2 H3. rewrite Hr. unfold playInto. rewrite H1, H2, H3. simpl.
    by apply Hstore.
  - intros H1 H2 H3 H4 H5. rewrite Hr. unfold playInto, playSpotify.
    rewrite H1, H2, H3, H4, H5. simpl. by apply Hstore.
Qed.

Lemma session_created_before_arguments_witness :
  let i := mkInteraction "guild" (Some "user") (Some (mkChannel "voice" true)) in
  let inputs := mkInputs None (Some "not a video") None false true in
  play exampleEnv [3] [] i inputs [] =
    mkResult [mkSession "guild" (mkChannel "voice" true) [] None true false]
             [EditReply "Invalid YouTube link."] None true None.
Proof.
  intros i inputs.
  destruct (session_created_before_arguments exampleEnv [3] [] i inputs []
              "user" (mkChannel "voice" true)
              eq_refl eq_refl eq_refl eq_refl) as (_ & _ & H & _).
  { by vm_compute. }
  by apply H.
Defined.

(** ** Failures on the way *)

(** X20.  Missing metadata does not stop the enqueue.  When the details
    of the first track cannot be fetched, the tracks are enqueued all the
    same, the reply is the 'Could not fetch video details' notice whatever
    was playing and wherever the tracks went, and the command goes on to
    attach the player buttons without throwing. *)
Theorem metadata_failure_still_enqueues E s t tracks front :
  getVideoDetails E t = None →
  enqueueAndRespond E s (t :: tracks) front =
    ((session_enqueue (t :: tracks) front s).2,
     [RespondWithEmbed (mkEmbed None (Some couldNotFetch) None);
      AttachPlayerButtons],
     None, None) ∧
  (front = false →
   playlist (enqueueAndRespond E s (t :: tracks) front).1.1.1
     = playlist s ++ t :: tracks).
Proof.
  intros Hd.
  assert (enqueueAndRespond E s (t :: tracks) front =
            ((session_enqueue (t :: tracks) front s).2,
             [RespondWithEmbed (mkEmbed None (Some couldNotFetch) None);
              AttachPlayerButtons],
             None, None)) as H.
  { unfold enqueueAndRespond, enqueue. by rewrite Hd. }
  split; [done|]. intros ->. rewrite H. simpl fst.
  apply playlist_enqueue_tail.
Qed.

Lemma metadata_failure_still_enqueues_witness :
  let E := mkEnv (λ _, None) (λ _ _, EmptyString)
                 (λ q, Some (mkTrack q YOUTUBE_VOD))
                 (λ _, false) (λ _, false) (λ _, false) (λ _, false)
                 (λ _, None) (λ _, None) (λ _, None) (λ _, None) (λ _, None) in
  let A := mkTrack "a" YOUTUBE_VOD in
  let s := newSession "guild" (mkChannel "voice" true) in
  enqueueAndRespond E s [A] false =
    (mkSession "guild" (mkChannel "voice" true) [] (Some A) false false,
     [RespondWithEmbed (mkEmbed None (Some couldNotFetch) None);
      AttachPlayerButtons],
     None, None).
Proof.
  intros E A s.
  exact (proj1 (metadata_failure_still_enqueues E s A [] false eq_refl)).
Defined.

Lemma enqueueAndRespond_thrown E s tracks front e :
  (enqueueAndRespond E s tracks front).1.2 = Some e →
  e = TypeError ∧ tracks = [] ∧ (enqueueAndRespond E s tracks front).1.1.2 = [].
Proof.
  unfold enqueueAndRespond. destruct tracks as [|t tracks].
  - unfold enqueue. simpl. by intros [= <-].
  - destruct (enqueue_cons_message E s t tracks front) as [m Hm].
    destruct (enqueue E s (t :: tracks) front) as [s' r]. simpl in Hm.
    by subst r.
Qed.

Lemma enqueueQueries_thrown E rnd s queries e :
  (enqueueQueries E rnd s queries).2 = inl e → e = TypeError.
Proof.
  unfold enqueueQueries.
  destruct (if isShuffled s then _ else _) as [|q rest]; [by intros [= <-]|].
  destruct (getTracksFromQueries E [q]) as [|t ts]; [by intros [= <-]|].
  destruct (enqueue_cons_message E s t [] false) as [m Hm].
  destruct (enqueue E s [t] false) as [s' r]. simpl in Hm. by subst r.
Qed.

(** X21.  What the Spotify branch throws.  For a link that is neither a
    Twitch nor a YouTube link, whatever goes wrong (the link does not parse,
    the playlist, album or track cannot be read, no track is found) makes
    [play] throw 'Invalid link.' with no reply sent; the one exception is an
    album of more than one query whose first query finds nothing, where the
    [TypeError] of [enqueueQueries] gets through, because that call is
    returned, not awaited, inside the [try]. *)
Theorem spotify_branch_throws E rndQ s l front e :
  (playSpotify E rndQ s l front).1.2 = Some e →
  (playSpotify E rndQ s l front).1.1.2 = [] ∧
  (e = invalidLink ∨
   (e = TypeError ∧ parseSpotifyLink E l = Some ALBUM ∧
    ∃ queries, parseSpotifyAlbum E l = Some queries ∧ 1 < length queries)).
Proof.
  assert (∀ tracks,
            (caught (enqueueAndRespond E s tracks front)).1.2 = Some e →
            (caught (enqueueAndRespond E s tracks front)).1.1.2 = [] ∧
            e = invalidLink) as Hce.
  { intros tracks He.
    destruct (enqueueAndRespond E s tracks front) as [[[s' rs] [e'|]] bg] eqn:Hr;
      simpl in *; [|done].
    injection He as <-. split; [|done].
    pose proof (enqueueAndRespond_thrown E s tracks front e') as H.
    rewrite Hr in H. simpl in H. by destruct H as (_ & _ & ->). }
  unfold playSpotify.
  destruct (parseSpotifyLink E l) as [[]|] eqn:Hl; simpl;
    try (intros [= <-]; by split; [|left]).
  - destruct (parseSpotifyPlaylist E l) as [qs|];
      [|intros [= <-]; by split; [|left]].
    case_bool_decide.
    + destruct (enqueueQueries E rndQ s qs) as [s' [e'|r]]; simpl; [|done].
      intros [= <-]. by split; [|left].
    + intros [? ->]%Hce. by split; [|left].
  - destruct (parseSpotifyAlbum E l) as [qs|] eqn:Hq;
      [|intros [= <-]; by split; [|left]].
    case_bool_decide.
    + pose proof (enqueueQueries_thrown E rndQ s qs) as Ht.
      destruct (enqueueQueries E rndQ s qs) as [s' [e'|r]]; simpl; [|done].
      intros [= <-]. split; [done|]. right. rewrite (Ht e') by done. eauto.
    + intros [? ->]%Hce. by split; [|left].
  - destruct (parseSpotifyTrack E l) as [q|];
      [|intros [= <-]; by split; [|left]].
    intros [? ->]%Hce. by split; [|left].
Qed.

Lemma spotify_branch_throws_witness :
  let E := mkEnv (λ t, Some (mkVideoDetails (link t) 60)) (λ _ _, EmptyString)
                 (λ q, None)
                 (λ _, false) (λ _, false) (λ _, false) (λ _, false)
                 (λ _, None) (λ _, Some TRACK) (λ _, None) (λ _, None)
                 (λ l, Some l) in
  let s := newSession "guild" (mkChannel "voice" true) in
  (playSpotify E [] s "spotify:track:1" false).1.2 = Some invalidLink ∧
  (playSpotify E [] s "spotify:track:1" false).1.1.2 = [].
Proof.
  intros E s.
  assert ((playSpotify E [] s "spotify:track:1" false).1.2 = Some invalidLink)
    as H by reflexivity.
  split; [exact H|].
  exact (proj1 (spotify_branch_throws E [] s "spotify:track:1" false
                  invalidLink H)).
Defined.

(** ** The progress report *)

Lemma string_app_inv_head (s a b : string) : s +:+ a = s +:+ b → a = b.
Proof. induction s as [|c s IH]; simpl; [done|]. intros [= H]. by apply IH. Qed.

Lemma concatDescription_inj first a b :
  concatDescription first a = concatDescription first b → a = b.
Proof.
  unfold concatDescription. intros [= H].
  destruct (truthy (description first)); [|done].
  by apply string_app_inv_head, string_app_inv_head in H.
Qed.

Lemma length_omap_some_fail {A B} (f : A → option B) (l : list A) :
  ¬ Forall (λ x, is_Some (f x)) l → length (omap f l) < length l.
Proof.
  intros Hn. pose proof (length_omap_filter f l) as Hl.
  destruct (filter (λ x, f x = None) l) as [|x l'] eqn:Hf; [|simpl in Hl; lia].
  destruct Hn. apply Forall_forall. intros x Hx.
  destruct (f x) as [y|] eqn:Hy; [by eexists|].
  assert (x ∈ filter (λ x, f x = None) l) as Hin
    by by apply list_elem_of_filter.
  rewrite Hf in Hin. by apply not_elem_of_nil in Hin.
Qed.

(** X22.  When the report closes.  After the background resolution, in
    whatever order the lookups completed, [numFetched] is the number of
    queries that resolved, never more than the number of queries; and the
    report rendered at that count is the closing
    'Queued n tracks from YouTube.' exactly when there was a query and every
    query resolved.  If a single one fails, the last report still announces
    tracks being fetched. *)
Theorem report_closes_iff_all_resolve E completed first rest s :
  completed rest ≡ₚ rest →
  let b := resolveRest E completed rest s in
  numFetched b = length (getTracksFromQueries E rest) ∧
  numFetched b ≤ length rest ∧
  (messageUpdate first rest (numFetched b) =
     concatDescription first
       ("Queued " +:+ pretty (numFetched b) +:+ " tracks from YouTube.")
   ↔ rest ≠ [] ∧ Forall (λ q, is_Some (resolveQuery E q)) rest).
Proof.
  intros Hdone b.
  destruct (resolveRest_from E completed rest (mkBatch s 0 [])) as (_ & Hn & _).
  simpl in Hn. fold (resolveRest E completed rest s) in Hn. fold b in Hn.
  assert (length (getTracksFromQueries E (completed rest))
            = length (getTracksFromQueries E rest)) as Hsame.
  { unfold getTracksFromQueries. by rewrite Hdone. }
  rewrite Hsame in Hn.
  pose proof (length_omap_filter (resolveQuery E) rest) as Hl.
  fold (getTracksFromQueries E rest) in Hl.
  split; [done|]. split; [lia|]. split.
  - intros Hm. unfold messageUpdate in Hm.
    case_bool_decide as H0.
    { apply concatDescription_inj in Hm. unfold fetchingTheOther in Hm.
      simpl in Hm. discriminate Hm. }
    case_bool_decide as H1.
    { apply concatDescription_inj in Hm. simpl in Hm.
      injection Hm as Hm.
      apply (string_app_inv_head (pretty (numFetched b))) in Hm.
      simpl in Hm. discriminate Hm. }
    split; [intros ->; simpl in *; lia|].
    destruct (decide (Forall (λ q, is_Some (resolveQuery E q)) rest))
      as [|Hnot]; [done|].
    apply length_omap_some_fail in Hnot.
    unfold getTracksFromQueries in Hn. lia.
  - intros [Hne Hall]. unfold messageUpdate.
    assert (numFetched b = length rest) as Hk.
    { rewrite Hn. by apply length_omap_all. }
    rewrite bool_decide_eq_false_2 by (rewrite Hk; by destruct rest).
    by rewrite bool_decide_eq_false_2 by lia.
Qed.

Lemma report_closes_iff_all_resolve_witness :
  let s := newSession "guild" (mkChannel "voice" true) in
  let b := resolveRest exampleEnv reverse ["b"; "c"] s in
  numFetched b = 2 ∧
  messageUpdate (mkEmbed None None None) ["b"; "c"] (numFetched b) =
    concatDescription (mkEmbed None None None)
      ("Queued " +:+ pretty (numFetched b) +:+ " tracks from YouTube.").
Proof.
  intros s b.
  destruct (report_closes_iff_all_resolve exampleEnv reverse
              (mkEmbed None None None) ["b"; "c"] s) as (H1 & _ & H3).
  { apply reverse_Permutation. }
  split; [exact H1|]. apply H3. split; [discriminate|].
  repeat constructor; by eexists.
Defined.

End PlayerMore.

(** * The throttle of the batch report *)

Module ThrottleFacts.
Import Player PlayerFacts.

Lemma spaced_snoc wait fs f :
  spaced wait fs →
  (∀ g, last fs = Some g → g.1 + wait ≤ f.1) →
  spaced wait (fs ++ [f]).
Proof.
  intros Hs Hl i f1 f2 H1 H2.
  destruct (decide (S i < length fs)) as [Hi|Hi].
  - rewrite lookup_app_l in H1 by lia. rewrite lookup_app_l in H2 by lia.
    by apply (Hs i).
  - pose proof (lookup_lt_Some _ _ _ H2) as Hlt.
    rewrite length_app in Hlt. simpl in Hlt.
    assert (S i = length fs) as Hlen by lia.
    rewrite lookup_app_r in H2 by lia.
    replace (S i - length fs) with 0 in H2 by lia. simpl in H2.
    injection H2 as <-.
    rewrite lookup_app_l in H1 by lia.
    apply Hl. rewrite last_lookup, <-Hlen. exact H1.
Qed.

Lemma Throttling_idle wait : Throttling wait 0 idleThrottle.
Proof. split; [|done]. by intros i f1 f2 H1. Qed.

Lemma requestUpdate_Throttling wait now th t n :
  0 < wait → Throttling wait now th → now ≤ t →
  let th' := requestUpdate wait th (t, n) in
  Throttling wait t th' ∧ current th' = n ∧ is_Some (lastFired th').
Proof.
  intros Hw [Hs Hl] Hnow. destruct th as [lf sc cur fs].
  unfold requestUpdate, elapse, Throttling in *. simpl in *.
  destruct lf as [l|].
  - destruct Hl as (Hle & [m Hlast] & Hsc).
    destruct sc; simpl.
    + case_bool_decide as Hdue; simpl.
      * assert (spaced wait (fs ++ [(l + wait, cur)])) as Hs1.
        { apply spaced_snoc; [done|]. intros g Hg. rewrite Hlast in Hg.
          injection Hg as <-. simpl. lia. }
        case_bool_decide as Hin; simpl.
        -- split; [|by eauto]. split; [done|]. split; [lia|].
           split; [|lia]. exists cur. by rewrite last_snoc.
        -- split; [|by eauto]. split.
           { apply spaced_snoc; [done|]. intros g Hg.
             rewrite last_snoc in Hg. injection Hg as <-. simpl. lia. }
           split; [lia|]. rewrite last_snoc. eauto.
      * rewrite bool_decide_eq_true_2 by lia. simpl.
        split; [|by eauto]. split; [done|]. split; [lia|].
        split; [by eauto|lia].
    + case_bool_decide as Hin; simpl.
      * split; [|by eauto]. split; [done|]. split; [lia|].
        split; [by eauto|lia].
      * split; [|by eauto]. split.
        { apply spaced_snoc; [done|]. intros g Hg. rewrite Hlast in Hg.
          injection Hg as <-. simpl. lia. }
        split; [lia|]. rewrite last_snoc. eauto.
  - destruct Hl as [-> ->]. simpl.
    split; [|by eauto]. split.
    { intros i f1 f2 H1 H2. by destruct i. }
    split; [lia|]. eauto.
Qed.

Lemma ordered_zip_fst (times : list nat) (counts : list nat) :
  length times = length counts → (zip times counts).*1 = times.
Proof. intros Hl. apply fst_zip. lia. Qed.

Lemma foldl_Throttling wait reqs :
  0 < wait →
  ∀ th now, Throttling wait now th → ordered now reqs.*1 →
  ∀ t n, last reqs = Some (t, n) →
  let th' := foldl (requestUpdate wait) th reqs in
  Throttling wait t th' ∧ current th' = n ∧ is_Some (lastFired th').
Proof.
  intros Hw. induction reqs as [|[t0 n0] reqs IH]; intros th now HT Ho t n Hlast.
  { discriminate Hlast. }
  simpl in Ho. destruct Ho as [Hle Ho].
  destruct (requestUpdate_Throttling wait now th t0 n0 Hw HT Hle)
    as (HT1 & Hc1 & Hl1).
  destruct reqs as [|r reqs].
  - simpl in Hlast. injection Hlast as <- <-. simpl. done.
  - change (last ((t0, n0) :: r :: reqs)) with (last (r :: reqs)) in Hlast.
    cbn [foldl]. eapply (IH _ t0); done.
Qed.

Lemma lastWindow_fired wait t th :
  0 < wait → Throttling wait t th → is_Some (lastFired th) →
  let fs := fired (lastWindow wait th) in
  spaced wait fs ∧
  ∃ T, last fs = Some (T, current th) ∧ t ≤ T ∧ T ≤ t + wait.
Proof.
  intros Hw [Hs Hl] [l Hlf]. destruct th as [lf sc cur fs]. simpl in *.
  subst lf. unfold lastWindow, elapse. simpl.
  destruct Hl as (Hle & [m Hlast] & Hsc).
  destruct sc; simpl.
  - rewrite bool_decide_eq_true_2 by lia. simpl. split.
    + apply spaced_snoc; [done|]. intros g Hg. rewrite Hlast in Hg.
      injection Hg as <-. simpl. lia.
    + exists (l + wait). rewrite last_snoc. split; [done|lia].
  - split; [done|]. exists t. split; [done|lia].
Qed.

(** Whatever the requests, in the order of their times: two notifications
    in a row are at least [wait] apart, and the last one shows the count of
    the last request, no later than [wait] after it. *)
Lemma throttled_spaced_last wait reqs :
  0 < wait → ordered 0 reqs.*1 →
  spaced wait (throttled wait reqs) ∧
  ∀ t n, last reqs = Some (t, n) →
    ∃ T, last (throttled wait reqs) = Some (T, n) ∧ t ≤ T ∧ T ≤ t + wait.
Proof.
  intros Hw Ho. unfold throttled. split.
  - destruct (last reqs) as [[t n]|] eqn:Hlast.
    + destruct (foldl_Throttling wait reqs Hw idleThrottle 0
                  (Throttling_idle wait) Ho t n Hlast) as (HT & _ & Hsome).
      by destruct (lastWindow_fired wait t _ Hw HT Hsome).
    + apply last_None in Hlast. subst reqs. simpl. by intros i f1 f2 H1.
  - intros t n Hlast.
    destruct (foldl_Throttling wait reqs Hw idleThrottle 0
                (Throttling_idle wait) Ho t n Hlast) as (HT & Hc & Hsome).
    destruct (lastWindow_fired wait t _ Hw HT Hsome) as (_ & T & HT1 & HT2).
    exists T. by rewrite <-Hc.
Qed.

Lemma last_zip {A B} (l : list A) (k : list B) a b :
  length l = length k → last l = Some a → last k = Some b →
  last (zip l k) = Some (a, b).
Proof.
  intros Hlen. rewrite !last_lookup, length_zip_with, <-Hlen, Nat.min_id.
  intros Ha Hb. rewrite Hlen in Hb at 1.
  rewrite lookup_zip_with, Ha. simpl. rewrite <-Hlen in Hb. by rewrite Hb.
Qed.

Lemma last_seq_1 k : 0 < k → last (seq 1 k) = Some k.
Proof.
  intros Hk. rewrite last_lookup, length_seq, lookup_seq_lt by lia.
  f_equal. lia.
Qed.

(** C2, as stated, fails in two ways.  The report is only ever asked for
    by the callback of lines 101-105, through the throttle, the last time
    like any other time.
    - Two tracks resolve, at 0 ms and at 1 ms.  The first report fires at
      once; the report of the completed batch, asked for at 1 ms, fires at
      5000 ms, when the interval is over, not upon completion.
    - The lookup of "c" fails.  The only report is the one at 0 ms, 'Queued
      1 tracks. Fetching the other 1 tracks from YouTube...': no report
      ever says that the batch is over. *)
Lemma completion_report_delayed_or_missing :
  let idle := newSession "guild" (mkChannel "voice" true) in
  let without (x : string) :=
    mkEnv (λ t, Some (mkVideoDetails (link t) 60)) (λ _ _, EmptyString)
          (λ q, if String.eqb q x then None else Some (mkTrack q YOUTUBE_VOD))
          (λ _, false) (λ _, false) (λ _, false) (λ _, false)
          (λ _, None) (λ _, None) (λ _, None) (λ _, None) (λ _, None) in
  let shown times b :=
    (λ r, (r.1, description r.2))
      <$> progressReports times b (mkEmbed None None None) ["b"; "c"] in
  (let b := resolveRest exampleEnv id ["b"; "c"] idle in
   numFetched b = 2 ∧
   shown [0; 1] b =
     [(0, Some ("Queued 1 tracks." +:+ nl
                +:+ "Fetching the other 1 tracks from YouTube..."));
      (5000, Some "Queued 2 tracks from YouTube.")]) ∧
  (let b := resolveRest (without "c") id ["b"; "c"] idle in
   numFetched b = 1 ∧
   shown [0] b =
     [(0, Some ("Queued 1 tracks." +:+ nl
                +:+ "Fetching the other 1 tracks from YouTube..."))]).
Proof. repeat split; by vm_compute. Qed.

(** C2, amended.  Let the callback of a resolution batch ask for a report
    at the times [times], in order, once for each track it enqueues.  Two
    notifications in a row are at least the throttle interval (5000 ms)
    apart, so that at most one fires in any interval window.  The last
    notification is never dropped: it shows the final count [numFetched],
    and it fires no sooner than the last request and no later than one
    interval after it.  It is the closing report 'Queued <n> tracks from
    YouTube.' when every query of the batch resolved.  A batch none of
    whose queries resolved shows no report at all. *)
Theorem reports_spaced_and_final_count_shown E completed first rest s times :
  completed rest ≡ₚ rest →
  let b := resolveRest E completed rest s in
  length times = numFetched b →
  ordered 0 times →
  let fs := throttled throttleInterval (zip times (updateRequests b)) in
  spaced throttleInterval fs ∧
  (times = [] → progressReports times b first rest = []) ∧
  ∀ t, last times = Some t →
    ∃ T, t ≤ T ∧ T ≤ t + throttleInterval ∧
      last fs = Some (T, numFetched b) ∧
      last (progressReports times b first rest)
        = Some (T, messageUpdate first rest (numFetched b)) ∧
      (Forall (λ q, is_Some (resolveQuery E q)) rest →
         messageUpdate first rest (numFetched b) =
           concatDescription first
             ("Queued " +:+ pretty (length rest) +:+ " tracks from YouTube.")).
Proof.
  intros Hdone b Hlen Ho fs.
  destruct (resolveRest_from E completed rest (mkBatch s 0 []))
    as (_ & Hn & Hu).
  simpl in Hn, Hu. fold (resolveRest E completed rest s) in Hn, Hu.
  fold b in Hn, Hu. rewrite <-Hn in Hu.
  assert (length times = length (updateRequests b)) as Hlen2.
  { by rewrite Hu, length_seq. }
  destruct (throttled_spaced_last throttleInterval
              (zip times (updateRequests b))) as [Hsp Hlast].
  { unfold throttleInterval. lia. }
  { by rewrite ordered_zip_fst. }
  split; [done|]. split.
  { intros ->. done. }
  intros t Ht.
  assert (0 < numFetched b) as Hpos.
  { rewrite <-Hlen. destruct times; [discriminate Ht|simpl; lia]. }
  destruct (Hlast t (numFetched b)) as (T & HT & H1 & H2).
  { apply last_zip; [done|done|]. rewrite Hu. by apply last_seq_1. }
  exists T. split; [done|]. split; [done|]. split; [done|]. split.
  { unfold progressReports. by rewrite fmap_last, HT. }
  intros Hall.
  assert (numFetched b = length rest) as Hk.
  { rewrite Hn. unfold getTracksFromQueries. rewrite Hdone.
    by apply length_omap_all. }
  unfold messageUpdate.
  rewrite bool_decide_eq_false_2 by lia.
  rewrite bool_decide_eq_false_2 by lia.
  by rewrite Hk.
Qed.

Lemma reports_spaced_and_final_count_shown_witness :
  let s := newSession "guild" (mkChannel "voice" true) in
  let b := resolveRest exampleEnv reverse ["b"; "c"] s in
  let first := mkEmbed None None None in
  spaced throttleInterval
         (throttled throttleInterval (zip [0; 1] (updateRequests b))) ∧
  ∃ T, 1 ≤ T ∧ T ≤ 1 + throttleInterval ∧
    last (progressReports [0; 1] b first ["b"; "c"])
      = Some (T, concatDescription first "Queued 2 tracks from YouTube.").
Proof.
  intros s b first.
  destruct (reports_spaced_and_final_count_shown exampleEnv reverse first
              ["b"; "c"] s [0; 1]) as (Hsp & _ & Hlast).
  { apply reverse_Permutation. }
  { reflexivity. }
  { simpl. lia. }
  split; [exact Hsp|].
  destruct (Hlast 1 eq_refl) as (T & H1 & H2 & _ & H4 & H5).
  exists T. split; [exact H1|]. split; [exact H2|].
  unfold b. rewrite H4, H5; [reflexivity|].
  repeat constructor; by eexists.
Defined.

End ThrottleFacts.
